(** * Pokit: a shallow embedding of the control core of [App.svelte]

    The chord table, note transposition, chord naming, the angle and
    modifier-key transposition mappings, the joystick adapter and the
    key/effect state machine of the Svelte component, with their
    properties. *)

From Stdlib Require Import ZArith QArith Qabs Qround Qminmax Lqa.
From Stdlib Require Import List String Ascii Bool Lia.
From Stdlib Require Import DecimalString Sorted.
From Stdlib Require DecimalPos Decimal.
Import ListNotations.

Local Open Scope Z_scope.

(* ------------------------------------------------------------------ *)
(** ** Integers printed the way JavaScript prints them ([`${n}`],
    [n.toString()]). *)

Definition js_int_to_string (z : Z) : string :=
  match z with
  | Z0 => "0"%string
  | Zpos p => NilEmpty.string_of_uint (Pos.to_uint p)
  | Zneg p => String.append "-" (NilEmpty.string_of_uint (Pos.to_uint p))
  end.

(* ------------------------------------------------------------------ *)
(** ** Tone.js pitch names, as used by [transposeNote].

    [Tone.Frequency(note)] parses a name with the regular expression
    [/^([a-g]{1}(?:b|#|...)?)(-?[0-9]+)/i] into the MIDI number
    [noteToScaleIndex[pitch] + (octave + 1) * 12]; [.transpose(s)]
    multiplies the frequency by [2^(s/12)], and [.toNote()] rounds
    [12 * log2(f / 440)] back to a semitone.  On semitone numbers the
    round trip through frequencies is the identity, so the model works on
    MIDI numbers directly.  Only the accidentals [#] and [b] are parsed:
    names reaching [transposeNote] are chord-table names or [toNote]
    output, which use no other. *)

Definition letter_index (c : ascii) : option Z :=
  match c with
  | "c"%char | "C"%char => Some 0
  | "d"%char | "D"%char => Some 2
  | "e"%char | "E"%char => Some 4
  | "f"%char | "F"%char => Some 5
  | "g"%char | "G"%char => Some 7
  | "a"%char | "A"%char => Some 9
  | "b"%char | "B"%char => Some 11
  | _ => None
  end.

Definition digit_value (c : ascii) : option Z :=
  let n := Z.of_nat (nat_of_ascii c) - 48 in
  if (0 <=? n) && (n <=? 9) then Some n else None.

(** Longest prefix of decimal digits, as [parseInt(s, 10)] reads it. *)
Fixpoint digits_prefix (acc : Z) (cs : list ascii) : Z * nat :=
  match cs with
  | [] => (acc, 0%nat)
  | c :: cs' =>
      match digit_value c with
      | Some v => let '(r, n) := digits_prefix (acc * 10 + v) cs' in (r, S n)
      | None => (acc, 0%nat)
      end
  end.

(** [(-?[0-9]+)]: an optional minus sign and at least one digit. *)
Definition parse_octave (cs : list ascii) : option Z :=
  match cs with
  | "-"%char :: cs' =>
      let '(v, n) := digits_prefix 0 cs' in
      if (n =? 0)%nat then None else Some (- v)
  | _ =>
      let '(v, n) := digits_prefix 0 cs in
      if (n =? 0)%nat then None else Some v
  end.

(** MIDI number of a pitch name. *)
Definition parse_note (note : string) : option Z :=
  match list_ascii_of_string note with
  | l :: rest =>
      match letter_index l with
      | None => None
      | Some idx =>
          let '(acc, rest') :=
            match rest with
            | "#"%char :: r => (1, r)
            | "b"%char :: r => (-1, r)
            | _ => (0, rest)
            end in
          match parse_octave rest' with
          | Some oct => Some (idx + acc + (oct + 1) * 12)
          | None => None
          end
      end
  | [] => None
  end.

(** [scaleIndexToNote] of Tone.js. *)
Definition scaleIndexToNote : list string :=
  ["C"; "C#"; "D"; "D#"; "E"; "F"; "F#"; "G"; "G#"; "A"; "A#"; "B"]%string.

(** [FrequencyClass.toNote]: [noteNumber = round(12 * log2(f / A4)) + 57],
    that is the MIDI number minus 12. *)
Definition toNote (midi : Z) : string :=
  let noteNumber := midi - 12 in
  let octave := noteNumber / 12 in
  let noteNumber := if octave <? 0 then noteNumber + (-12) * octave
                    else noteNumber in
  let noteName := nth (Z.to_nat (Z.rem noteNumber 12)) scaleIndexToNote
                      "undefined"%string in
  String.append noteName (js_int_to_string octave).

(** [transposeNote] (lines 88-91).  A name Tone cannot parse does not
    reach it; the model answers the empty name there. *)
Definition transposeNote (note : string) (semitones : Z) : string :=
  if semitones =? 0 then note
  else match parse_note note with
       | Some m => toNote (m + semitones)
       | None => ""%string
       end.

(* ------------------------------------------------------------------ *)
(** ** The chord table (lines 18-49). *)

Inductive KeyboardKeys := h | u | j | i | k | o | l.

Definition KeyboardKeys_eq_dec (x y : KeyboardKeys) : {x = y} + {x <> y}.
Proof. decide equality. Defined.

Definition all_keys : list KeyboardKeys := [h; u; j; i; k; o; l].

(** [chords[key].frequencies] *)
Definition frequencies (key : KeyboardKeys) : list string :=
  match key with
  | h => ["C3"; "E3"; "G3"]
  | u => ["D3"; "F3"; "A3"]
  | j => ["E3"; "G3"; "B3"]
  | i => ["F3"; "A3"; "C4"]
  | k => ["G3"; "B3"; "D4"]
  | o => ["A3"; "C4"; "E4"]
  | l => ["B3"; "D4"; "F4"]
  end%string.

(** [getTransposedFrequencies] (lines 93-97), with the component's
    [transposition] passed explicitly. *)
Definition getTransposedFrequencies (key : KeyboardKeys) (transposition : Z)
  : list string :=
  map (fun note => transposeNote note transposition) (frequencies key).

Example transposed_h_4 :
  getTransposedFrequencies h 4 = ["E3"; "G#3"; "B3"]%string.
Proof. reflexivity. Qed.

(* ------------------------------------------------------------------ *)
(** ** Chord naming: [getChordName] (lines 99-122).

    [Chord.detect] of the tonal library is an external collaborator: it is
    a parameter [detect] of the section. *)

Section ChordNaming.

Variable detect : list string -> list string.

Definition getChordName (key : KeyboardKeys) (transposition : Z) : string :=
  let freqs := if transposition =? 0 then frequencies key
               else getTransposedFrequencies key transposition in
  match detect freqs with
  | c :: _ => c
  | [] =>
      let originalName :=
        match detect (frequencies key) with
        | c :: _ => c
        | [] => "Unknown"%string
        end in
      if transposition =? 0 then originalName
      else
        let direction := if transposition >? 0 then "+"%string else ""%string in
        String.append originalName
          (String.append " " (String.append direction
                                (js_int_to_string transposition)))
  end.

(** The untransposed base name of the fallback chain. *)
Definition base_chord_name (key : KeyboardKeys) : string :=
  match detect (frequencies key) with
  | c :: _ => c
  | [] => "Unknown"%string
  end.

End ChordNaming.

(** The suffix the spec describes for the fallback name: nothing at offset
    0, an explicit [+] for a positive offset, a bare minus for a negative
    one. *)
Definition offset_suffix_spec (t : Z) : string :=
  match t with
  | Z0 => ""%string
  | Zpos p => String.append " +" (js_int_to_string (Zpos p))
  | Zneg p => String.append " -" (js_int_to_string (Zpos p))
  end.

(* ------------------------------------------------------------------ *)
(** ** The angle to transposition mapping (lines 75-86, 128-152).

    Angles are the joystick's real degrees, modelled as rationals. *)

(** [transpositionMap], as declared: (angle key, semitones). *)
Definition transpositionMap : list (Z * Z) :=
  [(90, 0); (45, 2); (0, 4); (315, 7); (270, 5); (225, -3); (180, -6); (135, 3)].

(** Insertion into an ascending list of integer keys. *)
Fixpoint insert_key (x : Z) (ks : list Z) : list Z :=
  match ks with
  | [] => [x]
  | y :: ks' => if x <? y then x :: ks else y :: insert_key x ks'
  end.

(** [Object.keys]: an object whose keys are all array indices (here the
    canonical numerals of non-negative integers) enumerates them in
    ascending numeric order, whatever the declaration order. *)
Definition object_keys (m : list (Z * Z)) : list Z :=
  fold_right insert_key [] (map fst m).

Fixpoint lookup_key (m : list (Z * Z)) (key : Z) : option Z :=
  match m with
  | [] => None
  | (k', v) :: m' => if k' =? key then Some v else lookup_key m' key
  end.

(** [transpositionMap[angle].semitones]; the fold below only ever picks a
    key of the map, so the default is never used. *)
Definition semitones_of (angle : Z) : Z :=
  match lookup_key transpositionMap angle with
  | Some v => v
  | None => 0
  end.

(** JavaScript's [x % 360] on numbers: the remainder of the quotient
    truncated toward zero. *)
Definition js_rem_360 (x : Q) : Q :=
  x - inject_Z 360 * inject_Z (Z.quot (Qnum x) (Zpos (Qden x) * 360)).

(** [((angle % 360) + 360) % 360] *)
Definition normalizeAngle (angle : Q) : Q :=
  js_rem_360 (js_rem_360 angle + inject_Z 360).

(** [Math.min(|x - m|, |x - m + 360|, |x - m - 360|)] *)
Definition angle_difference (normalizedAngle : Q) (mapAngle : Z) : Q :=
  Qmin (Qmin (Qabs (normalizedAngle - inject_Z mapAngle))
             (Qabs (normalizedAngle - inject_Z mapAngle + inject_Z 360)))
       (Qabs (normalizedAngle - inject_Z mapAngle - inject_Z 360)).

(** One iteration of the [forEach]: [if (difference < minDifference)]. *)
Definition closest_step (normalizedAngle : Q) (acc : Z * Q) (mapAngle : Z)
  : Z * Q :=
  let '(closestAngle, minDifference) := acc in
  let difference := angle_difference normalizedAngle mapAngle in
  if negb (Qle_bool minDifference difference)
  then (mapAngle, difference)
  else (closestAngle, minDifference).

Definition closestAngle_in (ks : list Z) (normalizedAngle : Q) : Z :=
  fst (fold_left (closest_step normalizedAngle) ks (0, inject_Z 360)).

(** [getTranspositionFromAngle] *)
Definition getTranspositionFromAngle (angle : Q) : Z :=
  semitones_of (closestAngle_in (object_keys transpositionMap)
                                (normalizeAngle angle)).

(** The same search over the keys in declaration order, the order the
    spec's tie-break names. *)
Definition getTranspositionFromAngle_declared (angle : Q) : Z :=
  semitones_of (closestAngle_in (map fst transpositionMap)
                                (normalizeAngle angle)).

Example object_keys_transpositionMap :
  object_keys transpositionMap = [0; 45; 90; 135; 180; 225; 270; 315].
Proof. reflexivity. Qed.

Example angle_45 : getTranspositionFromAngle (inject_Z 45) = 2.
Proof. vm_compute. reflexivity. Qed.

Example angle_22_5 : getTranspositionFromAngle (45 # 2) = 4.
Proof. vm_compute. reflexivity. Qed.

Example angle_m22_5 : getTranspositionFromAngle (-45 # 2) = 4.
Proof. vm_compute. reflexivity. Qed.

Example angle_22_5_declared : getTranspositionFromAngle_declared (45 # 2) = 2.
Proof. vm_compute. reflexivity. Qed.

(* ------------------------------------------------------------------ *)
(** ** Transposition setters and the joystick adapter (lines 124-175). *)

(** [clamp(value, -24, 24)] = [Math.min(Math.max(value, -24), 24)] *)
Definition setTransposition_value (value : Z) : Z :=
  Z.min (Z.max value (-24)) 24.

(** [Math.round]: nearest integer, halves toward +infinity. *)
Definition js_round (x : Q) : Z := Qfloor (x + (1 # 2)).

(** A nipplejs move payload: [angle] is absent or carries [degree]. *)
Record joystick_evt := {
  evt_angle : option Q;
  evt_distance : Q
}.

Definition maxDistance : Q := inject_Z 75.

(** The [scaledTransposition] [handleJoystickMove] passes to
    [setTransposition], when the event is not ignored. *)
Definition joystick_scaledTransposition (evt : joystick_evt) : option Z :=
  match evt_angle evt with
  | Some degrees =>
      if negb (Qle_bool (evt_distance evt) (inject_Z 5)) then
        let newTransposition := getTranspositionFromAngle degrees in
        let distanceFactor := Qmin (evt_distance evt / maxDistance) 1 in
        let scaledTransposition :=
          js_round (inject_Z newTransposition * distanceFactor) in
        Some scaledTransposition
      else None
  | None => None
  end.

(* ------------------------------------------------------------------ *)
(** ** Modifier keys: [updateWASDTransposition] (lines 177-207). *)

Definition has (set : list string) (x : string) : bool :=
  existsb (String.eqb x) set.

(** The angle chosen by the if/else chain. *)
Definition wasd_angle (w a s d : bool) : option Z :=
  if w && d then Some 45
  else if s && d then Some 315
  else if s && a then Some 225
  else if w && a then Some 135
  else if w then Some 90
  else if d then Some 0
  else if s then Some 270
  else if a then Some 180
  else None.

(** The argument [updateWASDTransposition] passes to [setTransposition]. *)
Definition wasd_transposition (modifierKeys : list string) : Z :=
  match wasd_angle (has modifierKeys "w") (has modifierKeys "a")
                   (has modifierKeys "s") (has modifierKeys "d") with
  | Some angle => getTranspositionFromAngle (inject_Z angle)
  | None => 0
  end.

(* ------------------------------------------------------------------ *)
(** ** The component state (lines 58-73).

    The model starts after [onMount]: [synth] exists, so the [synth]
    guards of the handlers are true.  The knob values never change in
    the events considered, so they are not part of the state. *)

Record state := {
  pressedKeys : list KeyboardKeys;
  modifierKeys : list string;
  lastKeyClicked : option KeyboardKeys;
  previousTransposition : Z;
  joystickActive : bool;
  transposition : Z
}.

Definition init_state : state := {|
  pressedKeys := []; modifierKeys := []; lastKeyClicked := None;
  previousTransposition := 0; joystickActive := false; transposition := 0 |}.

Definition set_pressedKeys (st : state) (p : list KeyboardKeys) : state :=
  {| pressedKeys := p; modifierKeys := modifierKeys st;
     lastKeyClicked := lastKeyClicked st;
     previousTransposition := previousTransposition st;
     joystickActive := joystickActive st; transposition := transposition st |}.

Definition set_modifierKeys (st : state) (m : list string) : state :=
  {| pressedKeys := pressedKeys st; modifierKeys := m;
     lastKeyClicked := lastKeyClicked st;
     previousTransposition := previousTransposition st;
     joystickActive := joystickActive st; transposition := transposition st |}.

Definition set_lastKeyClicked (st : state) (x : option KeyboardKeys) : state :=
  {| pressedKeys := pressedKeys st; modifierKeys := modifierKeys st;
     lastKeyClicked := x;
     previousTransposition := previousTransposition st;
     joystickActive := joystickActive st; transposition := transposition st |}.

Definition set_previousTransposition (st : state) (z : Z) : state :=
  {| pressedKeys := pressedKeys st; modifierKeys := modifierKeys st;
     lastKeyClicked := lastKeyClicked st; previousTransposition := z;
     joystickActive := joystickActive st; transposition := transposition st |}.

Definition set_joystickActive (st : state) (b : bool) : state :=
  {| pressedKeys := pressedKeys st; modifierKeys := modifierKeys st;
     lastKeyClicked := lastKeyClicked st;
     previousTransposition := previousTransposition st;
     joystickActive := b; transposition := transposition st |}.

(** [setTransposition] *)
Definition setTransposition (st : state) (value : Z) : state :=
  {| pressedKeys := pressedKeys st; modifierKeys := modifierKeys st;
     lastKeyClicked := lastKeyClicked st;
     previousTransposition := previousTransposition st;
     joystickActive := joystickActive st;
     transposition := setTransposition_value value |}.

(** [handleJoystickMove] *)
Definition handleJoystickMove (st : state) (evt : joystick_evt) : state :=
  match joystick_scaledTransposition evt with
  | Some scaledTransposition =>
      set_joystickActive (setTransposition st scaledTransposition) true
  | None => st
  end.

(** [handleJoystickEnd] *)
Definition handleJoystickEnd (st : state) : state :=
  setTransposition (set_joystickActive st false) 0.

(** [updateWASDTransposition] *)
Definition updateWASDTransposition (st : state) : state :=
  setTransposition st (wasd_transposition (modifierKeys st)).

(* ------------------------------------------------------------------ *)
(** ** Sets of keys ([SvelteSet]) and the tone-engine calls. *)

Definition key_eqb (x y : KeyboardKeys) : bool :=
  if KeyboardKeys_eq_dec x y then true else false.

Definition has_key (set : list KeyboardKeys) (x : KeyboardKeys) : bool :=
  existsb (key_eqb x) set.

(** [set.add(x)]: appends [x] when absent. *)
Definition add_key (set : list KeyboardKeys) (x : KeyboardKeys) :=
  if has_key set x then set else set ++ [x].

(** [set.delete(x)] *)
Definition delete_key (set : list KeyboardKeys) (x : KeyboardKeys) :=
  filter (fun y => negb (key_eqb x y)) set.

Definition add_string (set : list string) (x : string) :=
  if has set x then set else set ++ [x].

Definition delete_string (set : list string) (x : string) :=
  filter (fun y => negb (String.eqb x y)) set.

(** Calls on the [Tone.PolySynth]; [synth.set] is not recorded. *)
Inductive synth_call :=
| TriggerAttack (fs : list string)
| TriggerRelease (fs : list string)
| ReleaseAll.

(** [P.union("h", "u", "j", "i", "k", "o", "l")] *)
Definition chord_key_of (eventKey : string) : option KeyboardKeys :=
  if String.eqb eventKey "h" then Some h
  else if String.eqb eventKey "u" then Some u
  else if String.eqb eventKey "j" then Some j
  else if String.eqb eventKey "i" then Some i
  else if String.eqb eventKey "k" then Some k
  else if String.eqb eventKey "o" then Some o
  else if String.eqb eventKey "l" then Some l
  else None.

(** [P.union("w", "a", "s", "d")] *)
Definition is_modifier (eventKey : string) : bool :=
  has ["w"; "a"; "s"; "d"]%string eventKey.

(* ------------------------------------------------------------------ *)
(** ** The key handlers (lines 276-317).

    [None] is the exception [.run()] of ts-pattern raises for a key no
    pattern matches; it is raised before any mutation. *)

Definition onKeyDown (eventKey : string) (st : state)
  : option (state * list synth_call) :=
  match chord_key_of eventKey with
  | Some key =>
      if negb (has_key (pressedKeys st) key) then
        let st1 := set_pressedKeys st (add_key (pressedKeys st) key) in
        let '(st2, released) :=
          match lastKeyClicked st1 with
          | Some last =>
              if has_key (pressedKeys st1) last then
                (set_pressedKeys st1 (delete_key (pressedKeys st1) last),
                 [TriggerRelease
                    (getTransposedFrequencies last (transposition st1))])
              else (st1, [])
          | None => (st1, [])
          end in
        Some (set_lastKeyClicked st2 (Some key),
              released ++
              [TriggerAttack (getTransposedFrequencies key (transposition st2))])
      else Some (st, [])
  | None =>
      if is_modifier eventKey then
        if negb (has (modifierKeys st) eventKey)
        then Some (set_modifierKeys st (add_string (modifierKeys st) eventKey), [])
        else Some (st, [])
      else None
  end.

Definition onKeyUp (eventKey : string) (st : state)
  : option (state * list synth_call) :=
  match chord_key_of eventKey with
  | Some key =>
      if has_key (pressedKeys st) key then
        let st1 := set_pressedKeys st (delete_key (pressedKeys st) key) in
        let call :=
          TriggerRelease (getTransposedFrequencies key (transposition st1)) in
        match lastKeyClicked st1 with
        | Some last =>
            if key_eqb last key then Some (set_lastKeyClicked st1 None, [call])
            else Some (st1, [call])
        | None => Some (st1, [call])
        end
      else Some (st, [])
  | None =>
      if is_modifier eventKey
      then Some (set_modifierKeys st (delete_string (modifierKeys st) eventKey), [])
      else None
  end.

(* ------------------------------------------------------------------ *)
(** ** The reactive effects (lines 209-274) and one processed event.

    After a handler returns, Svelte flushes the effects whose signals
    changed: the [watch] on [modifierKeys] (its [values()] read tracks
    the set's version, bumped by every effective [add] or [delete]), the
    re-transposition [$effect] (it reruns whenever [transposition]
    changes and ends with [previousTransposition = transposition], so at
    every flush it finds the two equal unless [transposition] changed) and
    the settings [$effect] (it reads [lastKeyClicked] and
    [pressedKeys.has(lastKeyClicked)]).  The callbacks given to
    [tick().then] run after the flush, in registration order, and read
    the state at that time. *)

Inductive deferred :=
| AfterTransposition (oldFreqs : list string)
| AfterSettings (currentKey : KeyboardKeys).

(** The re-transposition [$effect]. *)
Definition transposition_effect (st : state) : state * list deferred :=
  let pending :=
    match lastKeyClicked st with
    | Some last =>
        if negb (transposition st =? previousTransposition st)
           && has_key (pressedKeys st) last
        then [AfterTransposition
                (map (fun note => transposeNote note (previousTransposition st))
                     (frequencies last))]
        else []
    | None => []
    end in
  (set_previousTransposition st (transposition st), pending).

Definition wasPlaying (st : state) : bool :=
  match lastKeyClicked st with
  | Some last => has_key (pressedKeys st) last
  | None => false
  end.

(** What the settings [$effect] reads. *)
Definition settings_deps (st : state) : option KeyboardKeys * bool :=
  (lastKeyClicked st, wasPlaying st).

Definition deps_eqb (x y : option KeyboardKeys * bool) : bool :=
  match x, y with
  | (Some a, b), (Some a', b') => key_eqb a a' && Bool.eqb b b'
  | (None, b), (None, b') => Bool.eqb b b'
  | _, _ => false
  end.

(** The settings [$effect]. *)
Definition settings_effect (st : state)
  : state * list synth_call * list deferred :=
  let currentKey := lastKeyClicked st in
  let '(st1, calls) :=
    if negb (wasPlaying st)
    then (set_lastKeyClicked (set_pressedKeys st []) None, [ReleaseAll])
    else (st, []) in
  (st1, calls,
   match currentKey with Some key => [AfterSettings key] | None => [] end).

(** The settings effect reruns while what it read has changed. *)
Fixpoint settings_flush (fuel : nat) (deps : option KeyboardKeys * bool)
  (st : state) : state * list synth_call * list deferred :=
  match fuel with
  | O => (st, [], [])
  | S fuel' =>
      if deps_eqb deps (settings_deps st) then (st, [], [])
      else
        let '(st1, c1, d1) := settings_effect st in
        let '(st2, c2, d2) := settings_flush fuel' (settings_deps st) st1 in
        (st2, c1 ++ c2, d1 ++ d2)
  end.

(** A [tick().then] callback, run against the settled state. *)
Definition run_deferred (st : state) (d : deferred) : list synth_call :=
  match d with
  | AfterTransposition oldFreqs =>
      TriggerRelease oldFreqs ::
      match lastKeyClicked st with
      | Some last =>
          [TriggerAttack (getTransposedFrequencies last (transposition st))]
      | None => []
      end
  | AfterSettings currentKey =>
      [TriggerRelease (getTransposedFrequencies currentKey (transposition st));
       TriggerAttack (getTransposedFrequencies currentKey (transposition st))]
  end.

(** The flush after a handler, from the settled state [before]. *)
Definition flush (before st : state) : state * list synth_call :=
  let st2 :=
    if list_eq_dec string_dec (modifierKeys before) (modifierKeys st) then st
    else updateWASDTransposition st in
  let '(st3, d1) := transposition_effect st2 in
  let '(st4, calls, d2) := settings_flush 3 (settings_deps before) st3 in
  (st4, calls ++ flat_map (run_deferred st4) (d1 ++ d2)).

Inductive event :=
| KeyDown (key : string)
| KeyUp (key : string)
| JoystickMove (evt : joystick_evt)
| JoystickEnd.

Definition handle (ev : event) (st : state) : option (state * list synth_call) :=
  match ev with
  | KeyDown key => onKeyDown key st
  | KeyUp key => onKeyUp key st
  | JoystickMove evt => Some (handleJoystickMove st evt, [])
  | JoystickEnd => Some (handleJoystickEnd st, [])
  end.

(** One event: the listener, then the flush.  A listener that throws
    leaves the state as it was. *)
Definition step (st : state) (ev : event) : state * list synth_call :=
  match handle ev st with
  | None => (st, [])
  | Some (st1, calls) =>
      let '(st2, calls2) := flush st st1 in (st2, calls ++ calls2)
  end.

Fixpoint run_from (st : state) (evs : list event) : state * list synth_call :=
  match evs with
  | [] => (st, [])
  | ev :: evs' =>
      let '(st1, c1) := step st ev in
      let '(st2, c2) := run_from st1 evs' in
      (st2, c1 ++ c2)
  end.

Definition run (evs : list event) : state * list synth_call :=
  run_from init_state evs.

(* ------------------------------------------------------------------ *)
(** ** The tone engine: active voices of the [PolySynth].

    [triggerAttack] starts one voice per note; [triggerRelease] releases,
    per note, the first active voice with the same MIDI number (an
    unparseable name has MIDI number [NaN], equal to nothing). *)

Definition same_midi (x y : string) : bool :=
  match parse_note x, parse_note y with
  | Some a, Some b => a =? b
  | _, _ => false
  end.

Fixpoint release_voice (note : string) (voices : list string) : list string :=
  match voices with
  | [] => []
  | v :: vs => if same_midi v note then vs else v :: release_voice note vs
  end.

Definition apply_call (voices : list string) (c : synth_call) : list string :=
  match c with
  | TriggerAttack fs => voices ++ fs
  | TriggerRelease fs => fold_left (fun vs note => release_voice note vs) fs voices
  | ReleaseAll => []
  end.

(** The voices after each call. *)
Fixpoint engine_trace (voices : list string) (calls : list synth_call)
  : list (list string) :=
  match calls with
  | [] => []
  | c :: cs => let v' := apply_call voices c in v' :: engine_trace v' cs
  end.

(** The engine holds at most one chord. *)
Definition one_chord (voices : list string) : Prop :=
  voices = [] \/ exists key t, voices = getTransposedFrequencies key t.

(* ------------------------------------------------------------------ *)
(** ** The chord buttons of the markup (lines 412-458).

    Each button of [{#each Object.entries(chords) as [key, chord]}]
    guards its pointer handlers on [pressedKeys.has(key)] and calls
    [onKeyDown(key)] or [onKeyUp(key)]; [oncontextmenu] only cancels the
    browser menu.  A handler that calls nothing changes nothing and
    leaves no effect to flush. *)

Inductive button_event :=
| MouseDown | TouchStart | TouchMove | TouchEnd | MouseUp | MouseLeave.

(** The key of [Object.entries(chords)]. *)
Definition key_name (key : KeyboardKeys) : string :=
  match key with
  | h => "h" | u => "u" | j => "j" | i => "i" | k => "k" | o => "o" | l => "l"
  end%string.

Definition button_handler (key : KeyboardKeys) (bev : button_event) (st : state)
  : option event :=
  match bev with
  | MouseDown | TouchStart =>
      if negb (has_key (pressedKeys st) key) then Some (KeyDown (key_name key))
      else None
  | TouchMove =>
      if has_key (pressedKeys st) key then Some (KeyDown (key_name key))
      else None
  | TouchEnd | MouseUp | MouseLeave =>
      if has_key (pressedKeys st) key then Some (KeyUp (key_name key))
      else None
  end.

Definition button_step (st : state) (key : KeyboardKeys) (bev : button_event)
  : state * list synth_call :=
  match button_handler key bev st with
  | Some ev => step st ev
  | None => (st, [])
  end.

(** Everything the page reacts to: the window and joystick listeners and
    the chord buttons. *)
Inductive ui_event :=
| Listener (ev : event)
| Button (key : KeyboardKeys) (bev : button_event).

Definition ui_step (st : state) (ue : ui_event) : state * list synth_call :=
  match ue with
  | Listener ev => step st ev
  | Button key bev => button_step st key bev
  end.

Fixpoint run_ui_from (st : state) (ues : list ui_event) : state * list synth_call :=
  match ues with
  | [] => (st, [])
  | ue :: ues' =>
      let '(st1, c1) := ui_step st ue in
      let '(st2, c2) := run_ui_from st1 ues' in
      (st2, c1 ++ c2)
  end.

Definition run_ui (ues : list ui_event) : state * list synth_call :=
  run_ui_from init_state ues.

(* ------------------------------------------------------------------ *)
(** ** What the properties talk about. *)

(** The chord keys held, as a list, for the invariant. *)
Definition key_list (x : option KeyboardKeys) : list KeyboardKeys :=
  match x with Some key => [key] | None => [] end.

Definition sounding (st : state) : list string :=
  match lastKeyClicked st with
  | Some key => getTransposedFrequencies key (transposition st)
  | None => []
  end.

Definition settled (st : state) : Prop :=
  previousTransposition st = transposition st /\
  -24 <= transposition st <= 24 /\
  pressedKeys st = key_list (lastKeyClicked st).

(** The calls of the re-transposition effect, from a settled state whose
    transposition becomes [t']. *)
Definition retranspose_calls (st : state) (t' : Z) : list synth_call :=
  match lastKeyClicked st with
  | Some key =>
      if t' =? transposition st then []
      else [TriggerRelease (getTransposedFrequencies key (transposition st));
            TriggerAttack (getTransposedFrequencies key t')]
  | None => []
  end.

(** The engine invariant: a settled state, and the engine holding exactly
    the chord of [lastKeyClicked]. *)
Definition engine_ok (st : state) (voices : list string) : Prop :=
  settled st /\ voices = sounding st.

(** A state some sequence of events leads to from the mounted state. *)
Definition reachable (st : state) : Prop := exists evs, fst (run evs) = st.

(** The modifier set holds only w, a, s and d, each at most once. *)
Definition modifiers_ok (mods : list string) : Prop :=
  NoDup mods /\ incl mods ["w"; "a"; "s"; "d"]%string.

Definition is_attack (c : synth_call) : bool :=
  match c with TriggerAttack _ => true | _ => false end.

Definition count_attacks (calls : list synth_call) : nat :=
  List.length (filter is_attack calls).

(** Exhaustive checks over the chord table and the offsets in range. *)
Definition offsets_in_range : list Z :=
  map (fun n => Z.of_nat n - 24) (seq 0 49).

Definition list_string_eqb (xs ys : list string) : bool :=
  if list_eq_dec string_dec xs ys then true else false.

Definition roundtrip_check : bool :=
  forallb (fun key =>
    forallb (fun t =>
      list_string_eqb
        (map (fun note => transposeNote note (- t))
             (getTransposedFrequencies key t))
        (frequencies key)) offsets_in_range) all_keys.

Definition parse_check : bool :=
  forallb (fun key =>
    forallb (fun t =>
      forallb (fun note => match parse_note note with
                           | Some _ => true | None => false end)
              (getTransposedFrequencies key t)) offsets_in_range) all_keys.

Example run_h : snd (run [KeyDown "h"]) =
  [TriggerAttack ["C3"; "E3"; "G3"]; TriggerRelease ["C3"; "E3"; "G3"];
   TriggerAttack ["C3"; "E3"; "G3"]]%string.
Proof. vm_compute. reflexivity. Qed.

Example run_h_d : snd (step (fst (run [KeyDown "h"])) (KeyDown "d")) =
  [TriggerRelease ["C3"; "E3"; "G3"]; TriggerAttack ["E3"; "G#3"; "B3"]]%string.
Proof. vm_compute. reflexivity. Qed.

(* ================================================================== *)
(** * Properties *)

(* ------------------------------------------------------------------ *)
(** ** Transposition of the chord table *)

Lemma offsets_in_range_spec (t : Z) :
  -24 <= t <= 24 -> In t offsets_in_range.
Proof.
  intros Ht. unfold offsets_in_range. apply in_map_iff.
  exists (Z.to_nat (t + 24)). split; [lia |]. apply in_seq. lia.
Qed.

Lemma all_keys_spec (key : KeyboardKeys) : In key all_keys.
Proof. destruct key; simpl; tauto. Qed.

Lemma roundtrip_check_true : roundtrip_check = true.
Proof. vm_compute. reflexivity. Qed.

(** Every transposed name of the table, at an offset in range, is one
    Tone parses (so the engine finds its voices again). *)
Lemma parse_check_true : parse_check = true.
Proof. vm_compute. reflexivity. Qed.

Lemma transposed_notes_parse (key : KeyboardKeys) (t : Z) :
  -24 <= t <= 24 ->
  Forall (fun note => exists m, parse_note note = Some m)
         (getTransposedFrequencies key t).
Proof.
  intros Ht. pose proof parse_check_true as Hc. unfold parse_check in Hc.
  rewrite forallb_forall in Hc. specialize (Hc key (all_keys_spec key)).
  rewrite forallb_forall in Hc. specialize (Hc t (offsets_in_range_spec t Ht)).
  rewrite forallb_forall in Hc. apply Forall_forall. intros note Hn.
  specialize (Hc note Hn). destruct (parse_note note) as [m|]; [eauto | discriminate].
Qed.

(** C7: for every chord key and every offset in [-24, 24], transposing the
    base names by the offset and then by its opposite gives back the base
    names; transposing by 0 returns every name unchanged. *)
Theorem transpose_roundtrip :
  (forall (key : KeyboardKeys) (t : Z), -24 <= t <= 24 ->
     map (fun note => transposeNote note (- t)) (getTransposedFrequencies key t)
     = frequencies key) /\
  (forall note : string, transposeNote note 0 = note).
Proof.
  split.
  - intros key t Ht. pose proof roundtrip_check_true as Hc.
    unfold roundtrip_check in Hc. rewrite forallb_forall in Hc.
    specialize (Hc key (all_keys_spec key)). rewrite forallb_forall in Hc.
    specialize (Hc t (offsets_in_range_spec t Ht)).
    unfold list_string_eqb in Hc.
    destruct (list_eq_dec string_dec _ _) as [E|]; [exact E | discriminate].
  - intros note. reflexivity.
Qed.

Lemma transpose_roundtrip_witness :
  -24 <= 4 <= 24 /\
  map (fun note => transposeNote note (- 4)) (getTransposedFrequencies h 4)
  = frequencies h.
Proof.
  split; [lia |]. apply (proj1 transpose_roundtrip h 4). lia.
Defined.

(* ------------------------------------------------------------------ *)
(** ** Chord naming *)

Lemma string_append_empty_r (s : string) : String.append s "" = s.
Proof. induction s as [|c s IH]; simpl; [reflexivity | now rewrite IH]. Qed.

Lemma getTransposedFrequencies_0 (key : KeyboardKeys) :
  getTransposedFrequencies key 0 = frequencies key.
Proof. unfold getTransposedFrequencies. simpl. apply map_id. Qed.

(** C5 (as stated, refuted): with a detector that finds nothing, key [h]
    at offset 4 is named ["Unknown +4"], not ["Unknown"]. *)
Lemma chord_name_unknown_counterexample :
  getChordName (fun _ => []) h 4 = "Unknown +4"%string /\
  getChordName (fun _ => []) h 4 <> "Unknown"%string.
Proof. split; [reflexivity | discriminate]. Qed.

(** C5 (amended): the first candidate of the detection on the current
    transposed names wins; otherwise the name is the base name (the first
    candidate on the base names, or ["Unknown"]) followed by the offset
    suffix: nothing at 0, [" +n"] for positive, [" -n"] for negative
    offsets, also after ["Unknown"]. *)
Theorem chord_name_fallback (detect : list string -> list string)
  (key : KeyboardKeys) (t : Z) :
  (forall c cs, detect (getTransposedFrequencies key t) = c :: cs ->
     getChordName detect key t = c) /\
  (detect (getTransposedFrequencies key t) = [] ->
     getChordName detect key t =
     String.append (base_chord_name detect key) (offset_suffix_spec t)).
Proof.
  unfold getChordName, base_chord_name.
  assert (Hf : (if t =? 0 then frequencies key else getTransposedFrequencies key t)
               = getTransposedFrequencies key t).
  { destruct (Z.eqb_spec t 0) as [->|]; [symmetry; apply getTransposedFrequencies_0
                                       | reflexivity]. }
  rewrite Hf. split.
  - intros c cs E. rewrite E. reflexivity.
  - intros E. rewrite E.
    destruct (detect (frequencies key)) as [|c0 cs0];
      destruct t as [|p|p]; simpl; try reflexivity;
      symmetry; apply string_append_empty_r.
Qed.

Lemma chord_name_fallback_witness :
  (fun _ : list string => @nil string) (getTransposedFrequencies h 4) = [] /\
  getChordName (fun _ => []) h 4 =
  String.append (base_chord_name (fun _ => []) h) (offset_suffix_spec 4).
Proof.
  split; [reflexivity |].
  apply (proj2 (chord_name_fallback (fun _ => []) h 4)). reflexivity.
Defined.

(* ------------------------------------------------------------------ *)
(** ** Modifier keys *)

(** Which of [w], [a], [s], [d] the set holds. *)
Definition wasd_flags (mods : list string) : bool * bool * bool * bool :=
  (has mods "w", has mods "a", has mods "s", has mods "d").

Lemma wasd_transposition_flags (mods : list string) (w a s d : bool) :
  wasd_flags mods = (w, a, s, d) ->
  wasd_transposition mods =
  match wasd_angle w a s d with
  | Some angle => getTranspositionFromAngle (inject_Z angle)
  | None => 0
  end.
Proof. unfold wasd_flags, wasd_transposition. intros E. now inversion E. Qed.

(** C4 (as stated, refuted): holding [a] and [d], an opposite pair, gives
    offset 4 (the 0-degree entry), not 0; also through the key events. *)
Lemma wasd_opposite_pair_counterexample :
  wasd_transposition ["a"; "d"]%string = 4 /\
  transposition (fst (run [KeyDown "a"; KeyDown "d"]%string)) = 4.
Proof. split; vm_compute; reflexivity. Qed.

(** C4 (amended): the eight combinations without an opposite pair give
    the offsets of their compass angles (w 90, w+d 45, d 0, s+d 315,
    s 270, s+a 225, a 180, w+a 135); no key held gives 0; a combination
    with an opposite pair takes the first matching case of the chain
    w+d, s+d, s+a, w+a, w, d, s, a: a+d 4, w+s 0, w+a+s -3, w+s+d 2,
    w+a+d 2, a+s+d 7, all four 2. *)
Theorem wasd_mapping (mods : list string) :
  (wasd_flags mods = (true, false, false, false) ->
     wasd_transposition mods = getTranspositionFromAngle (inject_Z 90)) /\
  (wasd_flags mods = (true, false, false, true) ->
     wasd_transposition mods = getTranspositionFromAngle (inject_Z 45)) /\
  (wasd_flags mods = (false, false, false, true) ->
     wasd_transposition mods = getTranspositionFromAngle (inject_Z 0)) /\
  (wasd_flags mods = (false, false, true, true) ->
     wasd_transposition mods = getTranspositionFromAngle (inject_Z 315)) /\
  (wasd_flags mods = (false, false, true, false) ->
     wasd_transposition mods = getTranspositionFromAngle (inject_Z 270)) /\
  (wasd_flags mods = (false, true, true, false) ->
     wasd_transposition mods = getTranspositionFromAngle (inject_Z 225)) /\
  (wasd_flags mods = (false, true, false, false) ->
     wasd_transposition mods = getTranspositionFromAngle (inject_Z 180)) /\
  (wasd_flags mods = (true, true, false, false) ->
     wasd_transposition mods = getTranspositionFromAngle (inject_Z 135)) /\
  (wasd_flags mods = (false, false, false, false) -> wasd_transposition mods = 0) /\
  (wasd_flags mods = (false, true, false, true) -> wasd_transposition mods = 4) /\
  (wasd_flags mods = (true, false, true, false) -> wasd_transposition mods = 0) /\
  (wasd_flags mods = (true, true, true, false) -> wasd_transposition mods = -3) /\
  (wasd_flags mods = (true, false, true, true) -> wasd_transposition mods = 2) /\
  (wasd_flags mods = (true, true, false, true) -> wasd_transposition mods = 2) /\
  (wasd_flags mods = (false, true, true, true) -> wasd_transposition mods = 7) /\
  (wasd_flags mods = (true, true, true, true) -> wasd_transposition mods = 2).
Proof.
  repeat split; intros E; rewrite (wasd_transposition_flags _ _ _ _ _ E);
    vm_compute; reflexivity.
Qed.

Lemma wasd_mapping_witness :
  wasd_flags ["w"; "d"]%string = (true, false, false, true) /\
  wasd_transposition ["w"; "d"]%string = getTranspositionFromAngle (inject_Z 45).
Proof.
  split; [reflexivity |].
  apply (proj1 (proj2 (wasd_mapping ["w"; "d"]%string))). reflexivity.
Defined.

(* ------------------------------------------------------------------ *)
(** ** The nearest compass angle *)

Lemma js_rem_360_eq (x : Q) :
  js_rem_360 x == Z.rem (Qnum x) (Zpos (Qden x) * 360) # Qden x.
Proof.
  destruct x as [n d].
  unfold js_rem_360, Qeq, Qminus, Qplus, Qmult, Qopp, inject_Z.
  cbn [Qnum Qden].
  pose proof (Z.quot_rem' n (Zpos d * 360)) as Hqr.
  set (t := Z.quot n (Zpos d * 360)) in *.
  set (r := Z.rem n (Zpos d * 360)) in *.
  rewrite !Pos2Z.inj_mul. rewrite Hqr at 1. ring.
Qed.

Lemma js_rem_360_bounds (x : Q) :
  (-(inject_Z 360) < js_rem_360 x < inject_Z 360 /\
   (0 <= x -> 0 <= js_rem_360 x))%Q.
Proof.
  rewrite js_rem_360_eq. destruct x as [n d]. cbn [Qnum Qden].
  pose proof (Z.rem_bound_abs n (Zpos d * 360) ltac:(lia)) as Hb.
  unfold Qlt, Qle, inject_Z; cbn [Qopp Qnum Qden]. split.
  - rewrite Z.abs_mul in Hb. cbn [Z.abs] in Hb. split; lia.
  - intros Hn. cbn [Qnum Qden] in Hn.
    pose proof (Z.rem_bound_pos n (Zpos d * 360) ltac:(lia) ltac:(lia)). lia.
Qed.

Lemma normalizeAngle_range (angle : Q) :
  (0 <= normalizeAngle angle < inject_Z 360)%Q.
Proof.
  unfold normalizeAngle.
  destruct (js_rem_360_bounds angle) as [[H1 H2] _].
  destruct (js_rem_360_bounds (js_rem_360 angle + inject_Z 360))
    as [[H3 H4] H5].
  split; [apply H5 | exact H4]. unfold inject_Z in *. lra.
Qed.

Section ClosestSearch.

Variable x : Q.

Local Abbreviation dist := (angle_difference x).

(** The [forEach] with a strict [<] keeps the first key of least
    difference; on ascending keys that is the smallest such key. *)
Lemma fold_closest (ks : list Z) :
  StronglySorted Z.lt ks ->
  forall c0 m0 c m,
  fold_left (closest_step x) ks (c0, m0) = (c, m) ->
  ((c, m) = (c0, m0) /\ forall key, In key ks -> (m0 <= dist key)%Q) \/
  (In c ks /\ m = dist c /\ (m < m0)%Q /\
   (forall key, In key ks -> (m <= dist key)%Q) /\
   (forall key, In key ks -> (dist key == m)%Q -> c <= key)).
Proof.
  induction ks as [|a ks IH]; intros Hs c0 m0 c m Hf.
  - left. simpl in Hf. split; [congruence | intros ? []].
  - inversion Hs as [|? ? Hs' Ha]; subst.
    rewrite Forall_forall in Ha.
    simpl in Hf.
    destruct (Qle_bool m0 (dist a)) eqn:E; simpl in Hf.
    + apply Qle_bool_imp_le in E.
      destruct (IH Hs' _ _ _ _ Hf) as [[Heq Hall] | (Hin & Hm & Hlt & Hall & Htie)].
      * left. split; [exact Heq |].
        intros key [<- | Hk]; [exact E | auto].
      * right. repeat split; auto.
        -- right; exact Hin.
        -- intros key [<- | Hk]; [lra | auto].
        -- intros key [<- | Hk] Hd; [lra | auto].
    + assert (E' : (dist a < m0)%Q).
      { apply Qnot_le_lt. intros Hle. apply Qle_bool_iff in Hle. congruence. }
      destruct (IH Hs' _ _ _ _ Hf) as [[Heq Hall] | (Hin & Hm & Hlt & Hall & Htie)].
      * inversion Heq; subst. right. repeat split.
        -- left; reflexivity.
        -- exact E'.
        -- intros key [<- | Hk]; [apply Qle_refl | auto].
        -- intros key [<- | Hk] _; [lia | specialize (Ha key Hk); lia].
      * right. repeat split; auto.
        -- right; exact Hin.
        -- lra.
        -- intros key [<- | Hk]; [lra | auto].
        -- intros key [<- | Hk] Hd; [lra | auto].
Qed.

End ClosestSearch.

Lemma object_keys_sorted :
  StronglySorted Z.lt (object_keys transpositionMap).
Proof.
  rewrite object_keys_transpositionMap.
  repeat constructor; repeat (apply Forall_cons || apply Forall_nil); lia.
Qed.

(** C3 (as stated, refuted): at 22.5 degrees the entries 0 and 45 tie;
    the earliest-declared of them is 45 (2 semitones), but the search
    returns the 0-degree entry (4 semitones), because [Object.keys]
    enumerates the integer keys in ascending order. *)
Lemma angle_tie_counterexample :
  (angle_difference (normalizeAngle (45 # 2)) 0
    == angle_difference (normalizeAngle (45 # 2)) 45)%Q /\
  getTranspositionFromAngle_declared (45 # 2) = 2 /\
  getTranspositionFromAngle (45 # 2) = 4.
Proof. repeat split; vm_compute; reflexivity. Qed.

(** C3 (amended): the input is normalized into [0, 360); the result is
    the semitone entry of a key of [transpositionMap] whose circular
    difference to the normalized angle is minimal, and among the keys at
    that minimal difference it is the smallest angle (ties go to the
    smaller compass angle, e.g. 22.5 to 0 and 337.5 to 0). *)
Theorem angle_nearest_smallest (angle : Q) :
  (0 <= normalizeAngle angle < inject_Z 360)%Q /\
  exists c, In c (object_keys transpositionMap) /\
    lookup_key transpositionMap c = Some (getTranspositionFromAngle angle) /\
    (forall key, In key (object_keys transpositionMap) ->
       (angle_difference (normalizeAngle angle) c
        <= angle_difference (normalizeAngle angle) key)%Q) /\
    (forall key, In key (object_keys transpositionMap) ->
       (angle_difference (normalizeAngle angle) key
        == angle_difference (normalizeAngle angle) c)%Q -> c <= key).
Proof.
  pose proof (normalizeAngle_range angle) as [H0 H360].
  split; [split; assumption |].
  unfold getTranspositionFromAngle, closestAngle_in.
  set (x := normalizeAngle angle) in *.
  destruct (fold_left (closest_step x) (object_keys transpositionMap)
                      (0, inject_Z 360)) as [c m] eqn:Hf.
  destruct (fold_closest x _ object_keys_sorted _ _ _ _ Hf)
    as [[Heq Hall] | (Hin & Hm & Hlt & Hall & Htie)].
  - exfalso.
    assert (Hd : (angle_difference x 0 <= Qabs (x - inject_Z 0))%Q).
    { unfold angle_difference.
      eapply Qle_trans; [apply Q.le_min_l | apply Q.le_min_l]. }
    assert (Ha : (Qabs (x - inject_Z 0) == x - inject_Z 0)%Q).
    { apply Qabs_pos. unfold inject_Z in *. lra. }
    specialize (Hall 0 ltac:(rewrite object_keys_transpositionMap; left; reflexivity)).
    unfold inject_Z in *. lra.
  - exists c. simpl. split; [exact Hin |]. split.
    + rewrite object_keys_transpositionMap in Hin. unfold semitones_of.
      simpl in Hin.
      repeat (destruct Hin as [<- | Hin]; [reflexivity |]). destruct Hin.
    + subst m. split; assumption.
Qed.

(* ------------------------------------------------------------------ *)
(** ** The joystick adapter *)

Lemma transposition_effect_fields (st : state) :
  transposition (fst (transposition_effect st)) = transposition st /\
  joystickActive (fst (transposition_effect st)) = joystickActive st /\
  modifierKeys (fst (transposition_effect st)) = modifierKeys st.
Proof. repeat split. Qed.

Lemma settings_effect_fields (st : state) :
  transposition (fst (fst (settings_effect st))) = transposition st /\
  joystickActive (fst (fst (settings_effect st))) = joystickActive st /\
  modifierKeys (fst (fst (settings_effect st))) = modifierKeys st.
Proof. unfold settings_effect. destruct (negb (wasPlaying st)); repeat split. Qed.

Lemma settings_flush_fields (n : nat) (deps : option KeyboardKeys * bool)
  (st : state) :
  transposition (fst (fst (settings_flush n deps st))) = transposition st /\
  joystickActive (fst (fst (settings_flush n deps st))) = joystickActive st /\
  modifierKeys (fst (fst (settings_flush n deps st))) = modifierKeys st.
Proof.
  revert deps st. induction n as [|n IH]; intros deps st; simpl; [auto |].
  destruct (deps_eqb deps (settings_deps st)); [simpl; auto |].
  destruct (settings_effect st) as [[st1 c1] d1] eqn:E.
  pose proof (settings_effect_fields st) as Hf. rewrite E in Hf. simpl in Hf.
  specialize (IH (settings_deps st) st1).
  destruct (settings_flush n (settings_deps st) st1) as [[st2 c2] d2].
  simpl in *. intuition congruence.
Qed.

(** What the flush leaves of the transposition and the joystick flag. *)
Lemma flush_fields (before st : state) :
  transposition (fst (flush before st)) =
    (if list_eq_dec string_dec (modifierKeys before) (modifierKeys st)
     then transposition st
     else setTransposition_value (wasd_transposition (modifierKeys st))) /\
  joystickActive (fst (flush before st)) = joystickActive st /\
  modifierKeys (fst (flush before st)) = modifierKeys st.
Proof.
  unfold flush.
  set (st2 := if list_eq_dec string_dec (modifierKeys before) (modifierKeys st)
              then st else updateWASDTransposition st).
  assert (H2 : transposition st2 =
                 (if list_eq_dec string_dec (modifierKeys before) (modifierKeys st)
                  then transposition st
                  else setTransposition_value (wasd_transposition (modifierKeys st))) /\
               joystickActive st2 = joystickActive st /\
               modifierKeys st2 = modifierKeys st).
  { unfold st2. destruct (list_eq_dec _ _ _); repeat split. }
  destruct (transposition_effect st2) as [st3 d1] eqn:E3.
  pose proof (transposition_effect_fields st2) as H3. rewrite E3 in H3.
  pose proof (settings_flush_fields 3 (settings_deps before) st3) as H4.
  destruct (settings_flush 3 (settings_deps before) st3) as [[st4 c] d2].
  simpl in *. intuition congruence.
Qed.

Lemma semitones_of_bound (angle : Z) : -7 <= semitones_of angle <= 7.
Proof.
  unfold semitones_of, transpositionMap, lookup_key.
  repeat match goal with
         | |- context [?a =? ?b] => destruct (a =? b)
         end; lia.
Qed.

Lemma js_round_near (x : Q) :
  (x - (1 # 2) < inject_Z (js_round x) <= x + (1 # 2))%Q.
Proof.
  unfold js_round. split.
  - pose proof (Qlt_floor (x + (1 # 2))) as H.
    rewrite inject_Z_plus in H. unfold inject_Z in *. lra.
  - apply Qfloor_le.
Qed.

Lemma js_round_compat (x y : Q) : (x == y)%Q -> js_round x = js_round y.
Proof.
  intros E. unfold js_round. apply Z.le_antisymm; apply Qfloor_resp_le;
    rewrite E; apply Qle_refl.
Qed.

Lemma js_round_small (x : Q) :
  (- inject_Z 7 <= x <= inject_Z 7)%Q -> -7 <= js_round x <= 7.
Proof.
  intros Hx. pose proof (js_round_near x) as [H1 H2].
  assert (A : (- (15 # 2) < inject_Z (js_round x) <= 15 # 2)%Q).
  { unfold inject_Z in *. split; lra. }
  destruct A as [A1 A2]. unfold Qlt, Qle in A1, A2. simpl in A1, A2. lia.
Qed.

Lemma distance_factor_range (dist : Q) :
  (inject_Z 5 < dist)%Q ->
  (0 <= Qmin (dist / maxDistance) 1 <= 1)%Q.
Proof.
  intros Hd. split.
  - apply Q.min_glb; [| discriminate].
    unfold maxDistance. apply Qle_shift_div_l; [reflexivity |].
    unfold inject_Z in *. lra.
  - apply Q.le_min_r.
Qed.

Lemma scaled_small (g : Z) (f : Q) :
  -7 <= g <= 7 -> (0 <= f <= 1)%Q ->
  (- inject_Z 7 <= inject_Z g * f <= inject_Z 7)%Q.
Proof.
  intros Hg [Hf0 Hf1].
  assert (G : (- inject_Z 7 <= inject_Z g <= inject_Z 7)%Q).
  { unfold Qle, inject_Z; simpl. lia. }
  unfold inject_Z in *. split; nra.
Qed.

Lemma getTranspositionFromAngle_bound (angle : Q) :
  -7 <= getTranspositionFromAngle angle <= 7.
Proof. apply semitones_of_bound. Qed.

Lemma step_joystick_move (st : state) (evt : joystick_evt) :
  transposition (fst (step st (JoystickMove evt))) =
    transposition (handleJoystickMove st evt) /\
  joystickActive (fst (step st (JoystickMove evt))) =
    joystickActive (handleJoystickMove st evt).
Proof.
  assert (E : modifierKeys (handleJoystickMove st evt) = modifierKeys st).
  { unfold handleJoystickMove. destruct (joystick_scaledTransposition evt); reflexivity. }
  unfold step. simpl.
  pose proof (flush_fields st (handleJoystickMove st evt)) as [Ht [Hj _]].
  rewrite E in Ht.
  destruct (list_eq_dec string_dec (modifierKeys st) (modifierKeys st))
    as [_|n]; [| now contradiction n].
  destruct (flush st (handleJoystickMove st evt)) as [st2 c2]. simpl in *.
  split; assumption.
Qed.

(** C6: a move event whose distance exceeds the 5-unit threshold sets the
    offset to the table value of the nearest compass angle scaled by
    [min(distance / 75, 1)] and rounded by [Math.round] (so within 1/2 of
    the scaled value), after the flush as well; at 45 degrees this is 2
    from distance 75 on and 1 at distance 37.5. *)
Theorem joystick_move_scaling (st : state) (deg dist : Q) :
  (inject_Z 5 < dist)%Q ->
  let st' := fst (step st (JoystickMove {| evt_angle := Some deg;
                                            evt_distance := dist |})) in
  transposition st' =
    js_round (inject_Z (getTranspositionFromAngle deg)
              * Qmin (dist / maxDistance) 1) /\
  (Qabs (inject_Z (transposition st') -
         inject_Z (getTranspositionFromAngle deg)
         * Qmin (dist / maxDistance) 1) <= 1 # 2)%Q /\
  joystickActive st' = true /\
  (deg = inject_Z 45 -> (maxDistance <= dist)%Q -> transposition st' = 2) /\
  (deg = inject_Z 45 -> (dist == maxDistance / inject_Z 2)%Q ->
     transposition st' = 1).
Proof.
  intros Hd st'.
  set (evt := {| evt_angle := Some deg; evt_distance := dist |}).
  pose proof (step_joystick_move st evt) as [Ht Hj].
  assert (Hs : joystick_scaledTransposition evt =
                 Some (js_round (inject_Z (getTranspositionFromAngle deg)
                                 * Qmin (dist / maxDistance) 1))).
  { unfold joystick_scaledTransposition. simpl.
    destruct (Qle_bool dist (inject_Z 5)) eqn:E; [| reflexivity].
    apply Qle_bool_imp_le in E. unfold inject_Z in *. lra. }
  set (x := (inject_Z (getTranspositionFromAngle deg)
             * Qmin (dist / maxDistance) 1)%Q) in *.
  assert (Hx : (- inject_Z 7 <= x <= inject_Z 7)%Q).
  { apply scaled_small; [apply getTranspositionFromAngle_bound |].
    apply distance_factor_range; exact Hd. }
  assert (Hclamp : setTransposition_value (js_round x) = js_round x).
  { pose proof (js_round_small x Hx). unfold setTransposition_value. lia. }
  assert (Ht' : transposition st' = js_round x).
  { unfold st'. fold evt. rewrite Ht. unfold handleJoystickMove. rewrite Hs.
    simpl. exact Hclamp. }
  split; [exact Ht' |]. split; [| split; [| split]].
  - rewrite Ht'. pose proof (js_round_near x) as [H1 H2].
    apply Qabs_Qle_condition. split; lra.
  - unfold st'. fold evt. rewrite Hj. unfold handleJoystickMove. rewrite Hs.
    reflexivity.
  - intros -> Hmax. rewrite Ht'. unfold x.
    assert (Hm : (Qmin (dist / maxDistance) 1 == 1)%Q).
    { apply Q.min_r. unfold maxDistance in *.
      apply Qle_shift_div_l; [reflexivity | unfold inject_Z in *; lra]. }
    rewrite (js_round_compat _ (inject_Z 2)); [reflexivity |].
    change (getTranspositionFromAngle (inject_Z 45)) with 2. rewrite Hm.
    reflexivity.
  - intros -> Hhalf. rewrite Ht'. unfold x.
    assert (Hm : (Qmin (dist / maxDistance) 1 == 1 # 2)%Q).
    { rewrite Hhalf. reflexivity. }
    rewrite (js_round_compat _ (inject_Z 1)); [reflexivity |].
    change (getTranspositionFromAngle (inject_Z 45)) with 2. rewrite Hm.
    reflexivity.
Qed.

Lemma joystick_move_scaling_witness :
  (inject_Z 5 < inject_Z 75)%Q /\
  transposition (fst (step init_state
    (JoystickMove {| evt_angle := Some (inject_Z 45);
                     evt_distance := inject_Z 75 |}))) = 2.
Proof.
  split; [reflexivity |].
  apply (proj1 (proj2 (proj2 (proj2
    (joystick_move_scaling init_state (inject_Z 45) (inject_Z 75)
                           ltac:(reflexivity)))))).
  - reflexivity.
  - apply Qle_refl.
Defined.

(** C9: the end-of-gesture event clears the active-gesture flag and sets
    the offset to 0, whatever the state, and the flush keeps both. *)
Theorem joystick_end_resets (st : state) :
  joystickActive (handleJoystickEnd st) = false /\
  transposition (handleJoystickEnd st) = 0 /\
  joystickActive (fst (step st JoystickEnd)) = false /\
  transposition (fst (step st JoystickEnd)) = 0.
Proof.
  unfold step. simpl.
  pose proof (flush_fields st (handleJoystickEnd st)) as [Ht [Hj _]].
  change (modifierKeys (handleJoystickEnd st)) with (modifierKeys st) in Ht.
  destruct (list_eq_dec string_dec (modifierKeys st) (modifierKeys st))
    as [_|n]; [| now contradiction n].
  destruct (flush st (handleJoystickEnd st)) as [st2 c2]. simpl in *.
  rewrite Ht, Hj. repeat split.
Qed.

(* ------------------------------------------------------------------ *)
(** ** The event loop and the tone engine *)

Lemma key_eqb_refl (x : KeyboardKeys) : key_eqb x x = true.
Proof. unfold key_eqb. destruct (KeyboardKeys_eq_dec x x); congruence. Qed.

Lemma key_eqb_neq (x y : KeyboardKeys) : x <> y -> key_eqb x y = false.
Proof. unfold key_eqb. destruct (KeyboardKeys_eq_dec x y); congruence. Qed.

Lemma deps_eqb_refl (d : option KeyboardKeys * bool) : deps_eqb d d = true.
Proof.
  destruct d as [[x|] b]; simpl; rewrite ?key_eqb_refl, ?Bool.eqb_reflx; reflexivity.
Qed.

Lemma settings_flush_stable (n : nat) (deps : option KeyboardKeys * bool)
  (st : state) :
  deps_eqb deps (settings_deps st) = true ->
  settings_flush (S n) deps st = (st, [], []).
Proof. intros E. simpl. rewrite E. reflexivity. Qed.

Lemma has_key_single (x : KeyboardKeys) : has_key [x] x = true.
Proof. unfold has_key. simpl. rewrite key_eqb_refl. reflexivity. Qed.

Lemma flush_same_keys (st st1 : state) :
  settled st ->
  pressedKeys st1 = pressedKeys st ->
  lastKeyClicked st1 = lastKeyClicked st ->
  previousTransposition st1 = transposition st ->
  let t2 := if list_eq_dec string_dec (modifierKeys st) (modifierKeys st1)
            then transposition st1
            else setTransposition_value (wasd_transposition (modifierKeys st1)) in
  let '(st', calls) := flush st st1 in
  pressedKeys st' = pressedKeys st /\
  lastKeyClicked st' = lastKeyClicked st /\
  transposition st' = t2 /\
  previousTransposition st' = t2 /\
  calls = retranspose_calls st t2.
Proof.
  intros [Hprev [Hr Hp]] Hp1 Hl1 Hprev1 t2.
  unfold flush.
  set (st2 := if list_eq_dec string_dec (modifierKeys st) (modifierKeys st1)
              then st1 else updateWASDTransposition st1).
  assert (E2 : pressedKeys st2 = pressedKeys st /\ lastKeyClicked st2 = lastKeyClicked st /\
               previousTransposition st2 = transposition st /\ transposition st2 = t2).
  { unfold st2, t2. destruct (list_eq_dec _ _ _); simpl; auto. }
  clearbody st2. destruct E2 as (P2 & L2 & V2 & T2).
  destruct (transposition_effect st2) as [st3 d1] eqn:E3.
  unfold transposition_effect in E3. injection E3 as <- <-.
  rewrite settings_flush_stable.
  2:{ replace (settings_deps (set_previousTransposition st2 (transposition st2)))
        with (settings_deps st); [apply deps_eqb_refl |].
      unfold settings_deps, wasPlaying. simpl. rewrite P2, L2. reflexivity. }
  simpl. rewrite P2, L2, T2, V2. repeat split; try reflexivity.
  unfold retranspose_calls. rewrite Hp.
  destruct (lastKeyClicked st) as [key|]; [| reflexivity].
  simpl key_list. rewrite has_key_single, andb_true_r.
  destruct (t2 =? transposition st); simpl; rewrite ?L2, ?T2; reflexivity.
Qed.

Lemma flush_mods_same (before st : state) :
  modifierKeys st = modifierKeys before ->
  flush before st =
  (let '(st3, d1) := transposition_effect st in
   let '(st4, calls, d2) := settings_flush 3 (settings_deps before) st3 in
   (st4, calls ++ flat_map (run_deferred st4) (d1 ++ d2))).
Proof.
  intros E. unfold flush. rewrite E.
  destruct (list_eq_dec string_dec (modifierKeys before) (modifierKeys before))
    as [_|n]; [reflexivity | now contradiction n].
Qed.

Lemma step_chord_down (st : state) (s : string) (key : KeyboardKeys) :
  settled st -> chord_key_of s = Some key -> ~ In key (pressedKeys st) ->
  let '(st', calls) := step st (KeyDown s) in
  lastKeyClicked st' = Some key /\ pressedKeys st' = [key] /\
  transposition st' = transposition st /\
  previousTransposition st' = transposition st /\
  calls =
    match lastKeyClicked st with
    | Some last => [TriggerRelease (getTransposedFrequencies last (transposition st))]
    | None => []
    end ++
    [TriggerAttack (getTransposedFrequencies key (transposition st));
     TriggerRelease (getTransposedFrequencies key (transposition st));
     TriggerAttack (getTransposedFrequencies key (transposition st))].
Proof.
  intros [Hprev [Hr Hp]] Hs Hn.
  destruct st as [p m last prev ja t]. simpl in *. subst p prev.
  unfold step, handle, onKeyDown. rewrite Hs.
  destruct last as [k'|]; simpl in Hn.
  - assert (Hk : k' <> key) by tauto.
    destruct key, k'; try congruence; simpl;
      rewrite flush_mods_same by reflexivity; simpl;
      rewrite Z.eqb_refl; simpl; repeat split.
  - destruct key; simpl;
      rewrite flush_mods_same by reflexivity; simpl;
      rewrite Z.eqb_refl; simpl; repeat split.
Qed.

Lemma step_chord_up (st : state) (s : string) (key : KeyboardKeys) :
  settled st -> chord_key_of s = Some key -> In key (pressedKeys st) ->
  let '(st', calls) := step st (KeyUp s) in
  lastKeyClicked st = Some key /\
  lastKeyClicked st' = None /\ pressedKeys st' = [] /\
  transposition st' = transposition st /\
  previousTransposition st' = transposition st /\
  calls = [TriggerRelease (getTransposedFrequencies key (transposition st));
           ReleaseAll].
Proof.
  intros [Hprev [Hr Hp]] Hs Hin.
  destruct st as [p m last prev ja t]. simpl in *. subst p prev.
  unfold step, handle, onKeyUp. rewrite Hs.
  destruct last as [k'|]; simpl in Hin; [| contradiction].
  destruct Hin as [<- | []].
  destruct k'; simpl;
    rewrite flush_mods_same by reflexivity; simpl;
    rewrite ?Z.eqb_refl; simpl; repeat split.
Qed.

Lemma has_key_In (ks : list KeyboardKeys) (x : KeyboardKeys) :
  has_key ks x = true <-> In x ks.
Proof.
  unfold has_key. rewrite existsb_exists. split.
  - intros [y [Hy E]]. unfold key_eqb in E.
    destruct (KeyboardKeys_eq_dec x y); [subst; exact Hy | discriminate].
  - intros H. exists x. split; [exact H | apply key_eqb_refl].
Qed.

Lemma setTransposition_value_range (v : Z) :
  -24 <= setTransposition_value v <= 24.
Proof. unfold setTransposition_value. lia. Qed.

Lemma step_via_flush (st st1 : state) (ev : event) :
  settled st -> handle ev st = Some (st1, []) ->
  pressedKeys st1 = pressedKeys st ->
  lastKeyClicked st1 = lastKeyClicked st ->
  previousTransposition st1 = transposition st ->
  -24 <= transposition st1 <= 24 ->
  let '(st', calls) := step st ev in
  lastKeyClicked st' = lastKeyClicked st /\ pressedKeys st' = pressedKeys st /\
  previousTransposition st' = transposition st' /\
  -24 <= transposition st' <= 24 /\
  calls = retranspose_calls st (transposition st').
Proof.
  intros Hset Hh Hp1 Hl1 Hv1 Hr1.
  unfold step. rewrite Hh.
  pose proof (flush_same_keys st st1 Hset Hp1 Hl1 Hv1) as Hf. simpl in Hf.
  destruct (flush st st1) as [st' calls].
  destruct Hf as (P & L & T & V & C).
  assert (R : -24 <= transposition st' <= 24).
  { rewrite T. destruct (list_eq_dec _ _ _);
      [exact Hr1 | apply setTransposition_value_range]. }
  split; [exact L |]. split; [exact P |]. split; [congruence |].
  split; [exact R |]. rewrite T. exact C.
Qed.

Lemma retranspose_calls_same (st : state) :
  retranspose_calls st (transposition st) = [].
Proof.
  unfold retranspose_calls. destruct (lastKeyClicked st); [| reflexivity].
  rewrite Z.eqb_refl. reflexivity.
Qed.

(** Every event other than pressing a free chord key or releasing a held
    one keeps the keys and re-attacks the sounding chord iff the
    transposition changed. *)
Lemma step_other (st : state) (ev : event) :
  settled st ->
  (forall s key, ev = KeyDown s -> chord_key_of s = Some key ->
     In key (pressedKeys st)) ->
  (forall s key, ev = KeyUp s -> chord_key_of s = Some key ->
     ~ In key (pressedKeys st)) ->
  let '(st', calls) := step st ev in
  lastKeyClicked st' = lastKeyClicked st /\ pressedKeys st' = pressedKeys st /\
  previousTransposition st' = transposition st' /\
  -24 <= transposition st' <= 24 /\
  calls = retranspose_calls st (transposition st').
Proof.
  intros Hset Hdown Hup.
  pose proof Hset as [Hprev [Hr Hp]].
  assert (Hnone : handle ev st = None ->
                  let '(st', calls) := step st ev in
                  lastKeyClicked st' = lastKeyClicked st /\
                  pressedKeys st' = pressedKeys st /\
                  previousTransposition st' = transposition st' /\
                  -24 <= transposition st' <= 24 /\
                  calls = retranspose_calls st (transposition st')).
  { intros Hh. unfold step. rewrite Hh.
    split; [reflexivity |]. split; [reflexivity |]. split; [exact Hprev |].
    split; [exact Hr |]. symmetry; apply retranspose_calls_same. }
  destruct ev as [s | s | evt |].
  - destruct (chord_key_of s) as [key|] eqn:Hs.
    + specialize (Hdown s key eq_refl Hs).
      apply (step_via_flush st st); auto.
      unfold handle, onKeyDown. rewrite Hs.
      apply has_key_In in Hdown. rewrite Hdown. reflexivity.
    + destruct (is_modifier s) eqn:Hm.
      * destruct (has (modifierKeys st) s) eqn:Hh.
        -- apply (step_via_flush st st); auto.
           unfold handle, onKeyDown. rewrite Hs, Hm, Hh. reflexivity.
        -- apply (step_via_flush st (set_modifierKeys st (add_string (modifierKeys st) s)));
             auto.
           unfold handle, onKeyDown. rewrite Hs, Hm, Hh. reflexivity.
      * apply Hnone. unfold handle, onKeyDown. rewrite Hs, Hm. reflexivity.
  - destruct (chord_key_of s) as [key|] eqn:Hs.
    + specialize (Hup s key eq_refl Hs).
      apply (step_via_flush st st); auto.
      unfold handle, onKeyUp. rewrite Hs.
      destruct (has_key (pressedKeys st) key) eqn:Hk; [| reflexivity].
      apply has_key_In in Hk. contradiction.
    + destruct (is_modifier s) eqn:Hm.
      * apply (step_via_flush st (set_modifierKeys st (delete_string (modifierKeys st) s)));
          auto.
        unfold handle, onKeyUp. rewrite Hs, Hm. reflexivity.
      * apply Hnone. unfold handle, onKeyUp. rewrite Hs, Hm. reflexivity.
  - apply (step_via_flush st (handleJoystickMove st evt)); auto;
      unfold handleJoystickMove;
      destruct (joystick_scaledTransposition evt); auto.
    apply setTransposition_value_range.
  - apply (step_via_flush st (handleJoystickEnd st)); auto.
    apply setTransposition_value_range.
Qed.

Lemma same_midi_refl (note : string) (m : Z) :
  parse_note note = Some m -> same_midi note note = true.
Proof. intros E. unfold same_midi. rewrite E. apply Z.eqb_refl. Qed.

Lemma release_prefix (fs ws : list string) :
  Forall (fun note => exists m, parse_note note = Some m) fs ->
  fold_left (fun vs note => release_voice note vs) fs (fs ++ ws) = ws.
Proof.
  induction 1 as [| f fs [m Hm] _ IH]; [reflexivity |].
  simpl. rewrite (same_midi_refl f m Hm). exact IH.
Qed.

Lemma release_chord (key : KeyboardKeys) (t : Z) :
  -24 <= t <= 24 ->
  fold_left (fun vs note => release_voice note vs)
    (getTransposedFrequencies key t) (getTransposedFrequencies key t) = [].
Proof.
  intros Ht.
  rewrite <- (app_nil_r (getTransposedFrequencies key t)) at 2.
  apply release_prefix, transposed_notes_parse, Ht.
Qed.

Lemma engine_trace_app (v : list string) (c1 c2 : list synth_call) :
  engine_trace v (c1 ++ c2) =
  engine_trace v c1 ++ engine_trace (fold_left apply_call c1 v) c2.
Proof.
  revert v. induction c1 as [| c c1 IH]; intros v; [reflexivity |].
  simpl. f_equal. apply IH.
Qed.

Lemma one_chord_nil : one_chord [].
Proof. left. reflexivity. Qed.

Lemma one_chord_chord (key : KeyboardKeys) (t : Z) :
  one_chord (getTransposedFrequencies key t).
Proof. right. exists key, t. reflexivity. Qed.

Create HintDb chords.
#[local] Hint Resolve one_chord_nil one_chord_chord : chords.

Ltac engine_simpl Hr :=
  cbn [fold_left apply_call engine_trace app key_list] in *;
  rewrite ?release_chord by exact Hr; cbn [fold_left apply_call engine_trace app].

Ltac engine_finish :=
  repeat split; try congruence; try lia;
  repeat (apply Forall_cons; [auto with chords |]); try apply Forall_nil.

Lemma step_engine (st : state) (voices : list string) (ev : event) :
  engine_ok st voices ->
  let '(st', calls) := step st ev in
  engine_ok st' (fold_left apply_call calls voices) /\
  Forall one_chord (engine_trace voices calls).
Proof.
  intros [Hset Hv].
  assert (Other :
    (forall s key, ev = KeyDown s -> chord_key_of s = Some key ->
       In key (pressedKeys st)) ->
    (forall s key, ev = KeyUp s -> chord_key_of s = Some key ->
       ~ In key (pressedKeys st)) ->
    let '(st', calls) := step st ev in
    engine_ok st' (fold_left apply_call calls voices) /\
    Forall one_chord (engine_trace voices calls)).
  { intros Hd Hu. pose proof (step_other st ev Hset Hd Hu) as Ho.
    destruct (step st ev) as [st' calls].
    destruct Ho as (L & P & V & R & C).
    destruct Hset as (Hprev & Hr & Hp).
    unfold engine_ok, settled, sounding in *. rewrite L, P, C.
    unfold retranspose_calls. subst voices.
    destruct (lastKeyClicked st) as [key|].
    - destruct (transposition st' =? transposition st) eqn:E.
      + apply Z.eqb_eq in E. rewrite E. engine_simpl Hr. engine_finish.
      + engine_simpl Hr. engine_finish.
    - engine_simpl Hr. engine_finish. }
  destruct ev as [s | s | evt |];
    [| | apply Other; discriminate | apply Other; discriminate].
  - destruct (chord_key_of s) as [key|] eqn:Hs;
      [| apply Other; [intros ? ? [= <-]; congruence | discriminate]].
    destruct (has_key (pressedKeys st) key) eqn:Hk.
    + apply Other; [| discriminate].
      intros ? ? [= <-] Hs'. rewrite Hs in Hs'. injection Hs' as <-.
      apply has_key_In, Hk.
    + assert (Hn : ~ In key (pressedKeys st)).
      { rewrite <- has_key_In, Hk. discriminate. }
      pose proof (step_chord_down st s key Hset Hs Hn) as Hd.
      destruct (step st (KeyDown s)) as [st' calls].
      destruct Hd as (L & P & T & V & C).
      destruct Hset as (Hprev & Hr & Hp).
      unfold engine_ok, settled, sounding in *.
      rewrite L, P, T, V, C. subst voices.
      destruct (lastKeyClicked st) as [k1|]; engine_simpl Hr; engine_finish.
  - destruct (chord_key_of s) as [key|] eqn:Hs;
      [| apply Other; [discriminate | intros ? ? [= <-]; congruence]].
    destruct (has_key (pressedKeys st) key) eqn:Hk.
    + apply has_key_In in Hk.
      pose proof (step_chord_up st s key Hset Hs Hk) as Hd.
      destruct (step st (KeyUp s)) as [st' calls].
      destruct Hd as (L0 & L & P & T & V & C).
      destruct Hset as (Hprev & Hr & Hp).
      unfold engine_ok, settled, sounding in *.
      rewrite L0 in Hv. rewrite L, P, T, V, C. subst voices.
      engine_simpl Hr. engine_finish.
    + apply Other; [discriminate |].
      intros ? ? [= <-] Hs'. rewrite Hs in Hs'. injection Hs' as <-.
      rewrite <- has_key_In, Hk. discriminate.
Qed.

Lemma run_from_engine (evs : list event) (st : state) (voices : list string) :
  engine_ok st voices ->
  let '(st', calls) := run_from st evs in
  engine_ok st' (fold_left apply_call calls voices) /\
  Forall one_chord (engine_trace voices calls).
Proof.
  revert st voices. induction evs as [| ev evs IH]; intros st voices H.
  - simpl. auto.
  - simpl. pose proof (step_engine st voices ev H) as Hs.
    destruct (step st ev) as [st1 c1].
    destruct Hs as [H1 T1].
    pose proof (IH st1 _ H1) as Hr.
    destruct (run_from st1 evs) as [st2 c2].
    destruct Hr as [H2 T2].
    rewrite fold_left_app, engine_trace_app.
    split; [exact H2 | apply Forall_app; auto].
Qed.

Lemma init_engine_ok : engine_ok init_state [].
Proof. repeat split; simpl; lia. Qed.

Lemma run_engine (evs : list event) :
  let '(st, calls) := run evs in
  engine_ok st (fold_left apply_call calls []) /\
  Forall one_chord (engine_trace [] calls).
Proof. apply run_from_engine, init_engine_ok. Qed.

Lemma run_settled (evs : list event) : settled (fst (run evs)).
Proof.
  pose proof (run_engine evs) as H. destruct (run evs) as [st calls].
  apply H.
Qed.

(** Every event falls in one of three cases: a chord key pressed that is
    not held, a held chord key released, or anything else. *)
Lemma step_cases (st : state) (ev : event) :
  (exists s key, ev = KeyDown s /\ chord_key_of s = Some key /\
     ~ In key (pressedKeys st)) \/
  (exists s key, ev = KeyUp s /\ chord_key_of s = Some key /\
     In key (pressedKeys st)) \/
  ((forall s key, ev = KeyDown s -> chord_key_of s = Some key ->
      In key (pressedKeys st)) /\
   (forall s key, ev = KeyUp s -> chord_key_of s = Some key ->
      ~ In key (pressedKeys st))).
Proof.
  destruct ev as [s | s | evt |];
    try (right; right; split; intros ? ? E; discriminate E).
  - destruct (chord_key_of s) as [key|] eqn:Hs.
    + destruct (has_key (pressedKeys st) key) eqn:Hk.
      * right; right. split; [| intros ? ? E; discriminate E].
        intros ? ? [= <-] Hs'. rewrite Hs in Hs'. injection Hs' as <-.
        apply has_key_In, Hk.
      * left. exists s, key. repeat split; [exact Hs |].
        rewrite <- has_key_In, Hk. discriminate.
    + right; right. split; [| intros ? ? E; discriminate E].
      intros ? ? [= <-]. congruence.
  - destruct (chord_key_of s) as [key|] eqn:Hs.
    + destruct (has_key (pressedKeys st) key) eqn:Hk.
      * right; left. exists s, key. repeat split; [exact Hs |].
        apply has_key_In, Hk.
      * right; right. split; [intros ? ? E; discriminate E |].
        intros ? ? [= <-] Hs'. rewrite Hs in Hs'. injection Hs' as <-.
        rewrite <- has_key_In, Hk. discriminate.
    + right; right. split; [intros ? ? E; discriminate E |].
      intros ? ? [= <-]. congruence.
Qed.

Lemma reachable_settled (st : state) : reachable st -> settled st.
Proof. intros [evs <-]. apply run_settled. Qed.

(** C1: over every sequence of events the tone engine holds at most one
    chord after every single call, it holds exactly the chord of the last
    clicked key, at most one chord key is pressed; and pressing a second
    chord key while a first one sounds releases the first chord before
    attacking the second. *)
Theorem one_chord_sounding (evs : list event) :
  (let '(st, calls) := run evs in
   Forall one_chord (engine_trace [] calls) /\
   fold_left apply_call calls [] = sounding st /\
   (List.length (pressedKeys st) <= 1)%nat) /\
  (forall s k1 k2,
     lastKeyClicked (fst (run evs)) = Some k1 ->
     chord_key_of s = Some k2 -> ~ In k2 (pressedKeys (fst (run evs))) ->
     exists rest,
       snd (step (fst (run evs)) (KeyDown s)) =
       TriggerRelease
         (getTransposedFrequencies k1 (transposition (fst (run evs)))) ::
       TriggerAttack
         (getTransposedFrequencies k2 (transposition (fst (run evs)))) :: rest).
Proof.
  split.
  - pose proof (run_engine evs) as H. destruct (run evs) as [st calls].
    destruct H as [[(Hprev & Hr & Hp) Hv] Ht].
    split; [exact Ht |]. split; [exact Hv |].
    rewrite Hp. destruct (lastKeyClicked st); simpl; lia.
  - intros s k1 k2 Hl Hs Hn.
    pose proof (step_chord_down _ s k2 (run_settled evs) Hs Hn) as Hd.
    destruct (step (fst (run evs)) (KeyDown s)) as [st' calls].
    destruct Hd as (_ & _ & _ & _ & C). rewrite Hl in C. simpl.
    rewrite C. eexists. reflexivity.
Qed.

Lemma one_chord_sounding_witness :
  lastKeyClicked (fst (run [KeyDown "h"])) = Some h /\
  exists rest,
    snd (step (fst (run [KeyDown "h"])) (KeyDown "u")) =
    TriggerRelease (getTransposedFrequencies h 0) ::
    TriggerAttack (getTransposedFrequencies u 0) :: rest.
Proof.
  split; [vm_compute; reflexivity |].
  refine (proj2 (one_chord_sounding [KeyDown "h"]) "u"%string h u _ _ _);
    vm_compute; [reflexivity | reflexivity | intros [E | []]; discriminate E].
Defined.

(** C2: from any reachable state whose last clicked key is [key], an event
    that changes the transposition issues exactly a release of the chord
    at the previous transposition, then an attack of the chord at the new
    one. *)
Theorem retranspose_on_change (st : state) (ev : event) (key : KeyboardKeys) :
  reachable st ->
  lastKeyClicked st = Some key ->
  transposition (fst (step st ev)) <> transposition st ->
  In key (pressedKeys st) /\
  snd (step st ev) =
  [TriggerRelease (getTransposedFrequencies key (previousTransposition st));
   TriggerAttack (getTransposedFrequencies key (transposition (fst (step st ev))))].
Proof.
  intros Hreach Hl Hne.
  pose proof (reachable_settled st Hreach) as Hset.
  pose proof Hset as (Hprev & Hr & Hp).
  split; [rewrite Hp, Hl; left; reflexivity |].
  destruct (step_cases st ev)
    as [(s & k & -> & Hs & Hn) | [(s & k & -> & Hs & Hin) | (Hd & Hu)]].
  - pose proof (step_chord_down st s k Hset Hs Hn) as H.
    destruct (step st (KeyDown s)) as [st' calls].
    destruct H as (_ & _ & T & _). simpl in Hne. contradiction.
  - pose proof (step_chord_up st s k Hset Hs Hin) as H.
    destruct (step st (KeyUp s)) as [st' calls].
    destruct H as (_ & _ & _ & T & _). simpl in Hne. contradiction.
  - pose proof (step_other st ev Hset Hd Hu) as H.
    destruct (step st ev) as [st' calls].
    destruct H as (_ & _ & _ & _ & C). simpl in *.
    rewrite C. unfold retranspose_calls. rewrite Hl, Hprev.
    apply Z.eqb_neq in Hne. rewrite Hne. reflexivity.
Qed.

Lemma retranspose_on_change_witness :
  transposition (fst (run [KeyDown "h"])) = 0 /\
  transposition (fst (step (fst (run [KeyDown "h"])) (KeyDown "d"))) = 4 /\
  In h (pressedKeys (fst (run [KeyDown "h"]))) /\
  snd (step (fst (run [KeyDown "h"])) (KeyDown "d")) =
  [TriggerRelease (getTransposedFrequencies h 0);
   TriggerAttack (getTransposedFrequencies h 4)].
Proof.
  split; [vm_compute; reflexivity |].
  split; [vm_compute; reflexivity |].
  refine (retranspose_on_change (fst (run [KeyDown "h"])) (KeyDown "d") h
            (ex_intro _ [KeyDown "h"] eq_refl) _ _);
    vm_compute; [reflexivity | discriminate].
Defined.

(** C8: pressing [h] twice without releasing it: the second keydown adds
    no call, but the single press already issued two attacks (the
    handler's, then the settings effect's restart of the chord). *)
Lemma repeated_press_counterexample :
  snd (step (fst (run [KeyDown "h"])) (KeyDown "h")) = [] /\
  snd (run [KeyDown "h"; KeyDown "h"]) =
  [TriggerAttack ["C3"; "E3"; "G3"]; TriggerRelease ["C3"; "E3"; "G3"];
   TriggerAttack ["C3"; "E3"; "G3"]]%string /\
  count_attacks (snd (run [KeyDown "h"; KeyDown "h"])) = 2%nat.
Proof. vm_compute. repeat split. Qed.

(** C10: an event that changes the modifier keys and leaves none of
    w, a, s, d held sets the transposition to 0, whatever it was. *)
Theorem wasd_release_resets (st : state) (ev : event) :
  modifierKeys (fst (step st ev)) <> modifierKeys st ->
  has (modifierKeys (fst (step st ev))) "w" = false ->
  has (modifierKeys (fst (step st ev))) "a" = false ->
  has (modifierKeys (fst (step st ev))) "s" = false ->
  has (modifierKeys (fst (step st ev))) "d" = false ->
  transposition (fst (step st ev)) = 0.
Proof.
  unfold step. destruct (handle ev st) as [[st1 calls]|]; [| contradiction].
  pose proof (flush_fields st st1) as (T & _ & M).
  destruct (flush st st1) as [st2 calls2]. simpl in *.
  rewrite M. intros Hne Hw Ha Hs Hd. rewrite T.
  destruct (list_eq_dec string_dec (modifierKeys st) (modifierKeys st1))
    as [E | _]; [congruence |].
  unfold wasd_transposition. rewrite Hw, Ha, Hs, Hd. reflexivity.
Qed.

Lemma wasd_release_resets_witness :
  transposition (fst (run [KeyDown "a"])) = -6 /\
  transposition (fst (step (fst (run [KeyDown "a"])) (KeyUp "a"))) = 0.
Proof.
  split; [vm_compute; reflexivity |].
  apply wasd_release_resets; vm_compute;
    [intros E; discriminate E | reflexivity ..].
Defined.

(* ------------------------------------------------------------------ *)
(** ** Note names: reading back what [toNote] writes. *)

Lemma digits_prefix_cons (acc v : Z) (c : ascii) (cs : list ascii) :
  digit_value c = Some v ->
  digits_prefix acc (c :: cs) =
  (fst (digits_prefix (acc * 10 + v) cs), S (snd (digits_prefix (acc * 10 + v) cs))).
Proof.
  intros E. simpl. rewrite E. destruct (digits_prefix (acc * 10 + v) cs). reflexivity.
Qed.

Ltac digit_step IH acc v p :=
  rewrite (digits_prefix_cons _ v) by reflexivity;
  replace (Zpos acc * 10 + v) with (Zpos (p + 10 * acc)%positive) by lia;
  rewrite IH; reflexivity.

Lemma digits_uint_acc (d : Decimal.uint) (acc : positive) :
  digits_prefix (Zpos acc) (list_ascii_of_string (NilEmpty.string_of_uint d)) =
  (Zpos (Pos.of_uint_acc d acc), Decimal.nb_digits d).
Proof.
  revert acc. induction d as [| d IH | d IH | d IH | d IH | d IH | d IH | d IH
                              | d IH | d IH | d IH]; intros acc;
    [reflexivity | ..];
    cbn [NilEmpty.string_of_uint list_ascii_of_string Pos.of_uint_acc
         Decimal.nb_digits].
  - rewrite (digits_prefix_cons _ 0) by reflexivity.
    replace (Zpos acc * 10 + 0) with (Zpos (10 * acc)%positive) by lia.
    rewrite IH; reflexivity.
  - digit_step IH acc 1 1%positive.
  - digit_step IH acc 2 2%positive.
  - digit_step IH acc 3 3%positive.
  - digit_step IH acc 4 4%positive.
  - digit_step IH acc 5 5%positive.
  - digit_step IH acc 6 6%positive.
  - digit_step IH acc 7 7%positive.
  - digit_step IH acc 8 8%positive.
  - digit_step IH acc 9 9%positive.
Qed.

Lemma digits_uint (d : Decimal.uint) :
  fst (digits_prefix 0 (list_ascii_of_string (NilEmpty.string_of_uint d))) =
    Z.of_N (Pos.of_uint d) /\
  snd (digits_prefix 0 (list_ascii_of_string (NilEmpty.string_of_uint d))) =
    Decimal.nb_digits d.
Proof.
  induction d as [| d IH | d | d | d | d | d | d | d | d | d];
    [split; reflexivity | ..];
    cbn [NilEmpty.string_of_uint list_ascii_of_string Pos.of_uint Decimal.nb_digits].
  - rewrite (digits_prefix_cons _ 0) by reflexivity. simpl Z.mul. simpl Z.add.
    destruct IH as [-> ->]. split; reflexivity.
  - rewrite (digits_prefix_cons _ 1) by reflexivity. simpl.
    rewrite digits_uint_acc. split; reflexivity.
  - rewrite (digits_prefix_cons _ 2) by reflexivity. simpl.
    rewrite digits_uint_acc. split; reflexivity.
  - rewrite (digits_prefix_cons _ 3) by reflexivity. simpl.
    rewrite digits_uint_acc. split; reflexivity.
  - rewrite (digits_prefix_cons _ 4) by reflexivity. simpl.
    rewrite digits_uint_acc. split; reflexivity.
  - rewrite (digits_prefix_cons _ 5) by reflexivity. simpl.
    rewrite digits_uint_acc. split; reflexivity.
  - rewrite (digits_prefix_cons _ 6) by reflexivity. simpl.
    rewrite digits_uint_acc. split; reflexivity.
  - rewrite (digits_prefix_cons _ 7) by reflexivity. simpl.
    rewrite digits_uint_acc. split; reflexivity.
  - rewrite (digits_prefix_cons _ 8) by reflexivity. simpl.
    rewrite digits_uint_acc. split; reflexivity.
  - rewrite (digits_prefix_cons _ 9) by reflexivity. simpl.
    rewrite digits_uint_acc. split; reflexivity.
Qed.

Lemma digits_pos (p : positive) :
  digits_prefix 0 (list_ascii_of_string (NilEmpty.string_of_uint (Pos.to_uint p))) =
  (Zpos p, Decimal.nb_digits (Pos.to_uint p)) /\
  Decimal.nb_digits (Pos.to_uint p) <> 0%nat.
Proof.
  destruct (digits_uint (Pos.to_uint p)) as [H1 H2].
  rewrite DecimalPos.Unsigned.of_to in H1.
  destruct (digits_prefix _ _) as [v n]. simpl in *. subst. split; [reflexivity |].
  pose proof (DecimalPos.Unsigned.to_uint_nonnil p).
  destruct (Pos.to_uint p); simpl; congruence.
Qed.

Lemma parse_octave_js (z : Z) :
  parse_octave (list_ascii_of_string (js_int_to_string z)) = Some z.
Proof.
  destruct z as [| p | p]; [reflexivity | |].
  - destruct (digits_pos p) as [E N]. unfold js_int_to_string.
    pose proof (DecimalPos.Unsigned.to_uint_nonnil p) as Hn.
    unfold parse_octave.
    destruct (Pos.to_uint p) as [| d | d | d | d | d | d | d | d | d | d] eqn:Ed;
      [congruence | ..];
      cbn [NilEmpty.string_of_uint list_ascii_of_string] in *;
      rewrite E; apply Nat.eqb_neq in N; rewrite N; reflexivity.
  - destruct (digits_pos p) as [E N]. unfold js_int_to_string.
    simpl list_ascii_of_string. unfold parse_octave. rewrite E.
    apply Nat.eqb_neq in N. rewrite N. reflexivity.
Qed.

Lemma js_int_head (z : Z) :
  exists c cs, list_ascii_of_string (js_int_to_string z) = c :: cs /\
               c <> "#"%char /\ c <> "b"%char.
Proof.
  destruct z as [| p | p].
  - eexists _, _. split; [reflexivity | split; discriminate].
  - pose proof (DecimalPos.Unsigned.to_uint_nonnil p) as Hn. unfold js_int_to_string.
    destruct (Pos.to_uint p); [congruence | ..];
      (eexists _, _; split; [reflexivity | split; discriminate]).
  - eexists _, _. split; [reflexivity | split; discriminate].
Qed.

Lemma no_accidental (c : ascii) (cs : list ascii) :
  c <> "#"%char -> c <> "b"%char ->
  match c :: cs with
  | "#"%char :: r => (1, r)
  | "b"%char :: r => (-1, r)
  | _ => (0, c :: cs)
  end = (0, c :: cs).
Proof.
  destruct c as [[] [] [] [] [] [] [] []]; intros H1 H2;
    try reflexivity; congruence.
Qed.

Lemma list_ascii_append (s1 s2 : string) :
  list_ascii_of_string (String.append s1 s2) =
  list_ascii_of_string s1 ++ list_ascii_of_string s2.
Proof. induction s1 as [| c s1 IH]; simpl; [reflexivity | now rewrite IH]. Qed.

(** [toNote] writes [m - 12] as octave [(m - 12) / 12] and pitch class
    [(m - 12) mod 12], in both of its branches. *)
Lemma toNote_parts (m : Z) :
  toNote m =
  String.append (nth (Z.to_nat ((m - 12) mod 12)) scaleIndexToNote "undefined"%string)
                (js_int_to_string ((m - 12) / 12)).
Proof.
  unfold toNote. f_equal. f_equal. f_equal.
  pose proof (Z.div_mod (m - 12) 12 ltac:(lia)) as Hd.
  pose proof (Z.mod_pos_bound (m - 12) 12 ltac:(lia)) as Hb.
  destruct (Z.ltb_spec ((m - 12) / 12) 0).
  - rewrite Z.rem_small; lia.
  - rewrite Z.rem_mod_nonneg; lia.
Qed.

(** The name [toNote] writes for any MIDI number, negative octaves
    included, reads back as that number. *)
Theorem parse_toNote (m : Z) : parse_note (toNote m) = Some m.
Proof.
  rewrite toNote_parts.
  pose proof (Z.div_mod (m - 12) 12 ltac:(lia)) as Hd.
  pose proof (Z.mod_pos_bound (m - 12) 12 ltac:(lia)) as Hb.
  set (oct := (m - 12) / 12) in *. set (r := (m - 12) mod 12) in *.
  destruct (js_int_head oct) as (c & cs & Hc & N1 & N2).
  pose proof (parse_octave_js oct) as Ho. rewrite Hc in Ho.
  unfold parse_note. rewrite list_ascii_append, Hc.
  assert (Hr : r = Z.of_nat (Z.to_nat r)) by lia.
  assert (Hn : (Z.to_nat r < 12)%nat) by lia.
  revert Hr Hn. generalize (Z.to_nat r) as n. intros n Hr Hn.
  unfold scaleIndexToNote.
  do 12 (destruct n as [| n];
    [cbn [nth list_ascii_of_string List.app letter_index];
     rewrite ?no_accidental by assumption; rewrite Ho; f_equal; simpl in Hr; lia |]).
  lia.
Qed.

(** Transposing a name Tone reads moves its pitch by exactly the offset,
    for any offset. *)
Theorem transposeNote_pitch (note : string) (m s : Z) :
  parse_note note = Some m -> parse_note (transposeNote note s) = Some (m + s).
Proof.
  intros H. unfold transposeNote.
  destruct (Z.eqb_spec s 0) as [-> | _].
  - rewrite H, Z.add_0_r. reflexivity.
  - rewrite H. apply parse_toNote.
Qed.

Lemma transposeNote_pitch_witness :
  parse_note "Db3" = Some 49 /\ parse_note (transposeNote "Db3" 30) = Some (49 + 30).
Proof.
  assert (H : parse_note "Db3" = Some 49) by reflexivity.
  split; [exact H | exact (transposeNote_pitch "Db3" 49 30 H)].
Defined.





(** Every chord of the table is made of names Tone reads, and transposing
    the chord by any offset moves each of its tones by that offset, so the
    chord keeps its intervals. *)
Theorem transposed_chord_pitches (key : KeyboardKeys) (t : Z) :
  exists ms,
    map parse_note (frequencies key) = map Some ms /\
    map parse_note (getTransposedFrequencies key t) = map (fun m => Some (m + t)) ms.
Proof.
  assert (G : forall notes ms, map parse_note notes = map Some ms ->
            map parse_note (map (fun note => transposeNote note t) notes) =
            map (fun m => Some (m + t)) ms).
  { induction notes as [| n notes IH]; intros [| m ms] E; try discriminate;
      [reflexivity |].
    simpl in E. injection E as E1 E2. simpl.
    rewrite (transposeNote_pitch n m t E1), (IH ms E2). reflexivity. }
  set (ms := map (fun n => match parse_note n with Some m => m | None => 0 end)
                 (frequencies key)).
  assert (E : map parse_note (frequencies key) = map Some ms)
    by (unfold ms; destruct key; vm_compute; reflexivity).
  exists ms. split; [exact E |]. apply G, E.
Qed.

(* ------------------------------------------------------------------ *)
(** ** The compass and the joystick scaling. *)

Lemma js_rem_360_shift (x : Q) :
  exists q : Z, (js_rem_360 x == x - inject_Z 360 * inject_Z q)%Q.
Proof. eexists. unfold js_rem_360. reflexivity. Qed.

Lemma normalizeAngle_shift (x : Q) :
  exists q : Z, (normalizeAngle x == x - inject_Z 360 * inject_Z q)%Q.
Proof.
  unfold normalizeAngle.
  destruct (js_rem_360_shift x) as [q1 H1].
  destruct (js_rem_360_shift (js_rem_360 x + inject_Z 360)) as [q2 H2].
  exists (q1 - 1 + q2). rewrite H2, H1.
  assert (E : (inject_Z (q1 - 1 + q2) == inject_Z q1 - 1 + inject_Z q2)%Q).
  { unfold Qeq, Qminus, Qplus, Qopp, inject_Z. cbn [Qnum Qden]. lia. }
  rewrite E. unfold inject_Z at 1 4. ring.
Qed.

Lemma Q_unit_interval (q : Z) : (-1 < inject_Z q < 1)%Q -> q = 0.
Proof. unfold Qlt, inject_Z. cbn [Qnum Qden]. lia. Qed.

(** [normalizeAngle] depends only on the angle modulo 360. *)
Lemma normalizeAngle_periodic (x : Q) (n : Z) :
  (normalizeAngle (x + inject_Z (360 * n)) == normalizeAngle x)%Q.
Proof.
  destruct (normalizeAngle_shift x) as [q1 H1].
  destruct (normalizeAngle_shift (x + inject_Z (360 * n))) as [q2 H2].
  pose proof (normalizeAngle_range x) as [R1 R2].
  pose proof (normalizeAngle_range (x + inject_Z (360 * n))) as [R3 R4].
  rewrite inject_Z_mult in H2.
  assert (E : q2 - n - q1 = 0).
  { apply Q_unit_interval.
    assert (Hq : (inject_Z (q2 - n - q1) ==
                  inject_Z q2 - inject_Z n - inject_Z q1)%Q).
    { unfold Qeq, Qminus, Qplus, Qopp, inject_Z. cbn [Qnum Qden]. lia. }
    rewrite Hq.
    rewrite H1 in R1, R2. rewrite H2 in R3, R4.
    unfold inject_Z in *. split; lra. }
  rewrite H2, H1. replace q2 with (q1 + n) by lia.
  rewrite inject_Z_plus. ring.
Qed.

Lemma angle_difference_compat (x y : Q) (a : Z) :
  (x == y)%Q -> (angle_difference x a == angle_difference y a)%Q.
Proof. intros E. unfold angle_difference. rewrite E. reflexivity. Qed.

Lemma closest_fold_compat (x y : Q) (ks : list Z) (c : Z) (m m' : Q) :
  (x == y)%Q -> (m == m')%Q ->
  fst (fold_left (closest_step x) ks (c, m)) =
  fst (fold_left (closest_step y) ks (c, m')).
Proof.
  intros E. revert c m m'. induction ks as [| a ks IH]; intros c m m' Hm; [reflexivity |].
  simpl. pose proof (angle_difference_compat x y a E) as Hd.
  replace (Qle_bool m' (angle_difference y a)) with (Qle_bool m (angle_difference x a)).
  - destruct (Qle_bool m (angle_difference x a)); simpl; apply IH; auto.
  - destruct (Qle_bool m (angle_difference x a)) eqn:B1,
             (Qle_bool m' (angle_difference y a)) eqn:B2; try reflexivity;
    apply Qle_bool_iff in B1 || apply Qle_bool_iff in B2;
    [ assert (B : (m' <= angle_difference y a)%Q) by (rewrite <- Hm, <- Hd; exact B1)
    | assert (B : (m <= angle_difference x a)%Q) by (rewrite Hm, Hd; exact B2) ];
    apply Qle_bool_iff in B; congruence.
Qed.

Lemma getTranspositionFromAngle_compat (x y : Q) :
  (normalizeAngle x == normalizeAngle y)%Q ->
  getTranspositionFromAngle x = getTranspositionFromAngle y.
Proof.
  intros E. unfold getTranspositionFromAngle, closestAngle_in. f_equal.
  apply closest_fold_compat; [exact E | reflexivity].
Qed.

(** Turning the input by whole turns does not change the offset. *)
Theorem getTranspositionFromAngle_periodic (angle : Q) (n : Z) :
  getTranspositionFromAngle (angle + inject_Z (360 * n)) =
  getTranspositionFromAngle angle.
Proof. apply getTranspositionFromAngle_compat, normalizeAngle_periodic. Qed.

Lemma js_round_mono (x y : Q) : (x <= y)%Q -> js_round x <= js_round y.
Proof. intros E. unfold js_round. apply Qfloor_resp_le. lra. Qed.

Lemma js_round_int (z : Z) : js_round (inject_Z z) = z.
Proof.
  pose proof (js_round_near (inject_Z z)) as [A1 A2].
  set (r := js_round (inject_Z z)) in *.
  unfold Qlt, Qle, Qminus, Qplus, Qopp, inject_Z in A1, A2.
  simpl in A1, A2. lia.
Qed.

Lemma joystick_scaled_parts (deg dist : Q) (v : Z) :
  joystick_scaledTransposition {| evt_angle := Some deg; evt_distance := dist |} = Some v ->
  (inject_Z 5 < dist)%Q /\
  v = js_round (inject_Z (getTranspositionFromAngle deg) * Qmin (dist / maxDistance) 1).
Proof.
  unfold joystick_scaledTransposition. cbn [evt_angle evt_distance].
  destruct (Qle_bool dist (inject_Z 5)) eqn:B; simpl; [discriminate |].
  intros E. injection E as <-. split; [| reflexivity].
  apply Qnot_le_lt. intros Hle. apply Qle_bool_iff in Hle. congruence.
Qed.

(** The scaled offset lies between 0 and the table value of the angle. *)
Theorem joystick_scaled_between (deg dist : Q) (v : Z) :
  joystick_scaledTransposition {| evt_angle := Some deg; evt_distance := dist |} = Some v ->
  (0 <= getTranspositionFromAngle deg -> 0 <= v <= getTranspositionFromAngle deg) /\
  (getTranspositionFromAngle deg <= 0 -> getTranspositionFromAngle deg <= v <= 0).
Proof.
  intros E. apply joystick_scaled_parts in E as [Hd ->].
  pose proof (distance_factor_range dist Hd) as [F0 F1].
  set (g := getTranspositionFromAngle deg).
  set (f := Qmin (dist / maxDistance) 1) in *.
  split; intros Hg.
  - assert (G0 : (0 <= inject_Z g)%Q) by (unfold Qle, inject_Z; simpl; lia).
    split.
    + apply Z.le_trans with (js_round 0); [reflexivity |].
      apply js_round_mono. set (G := inject_Z g) in *. nra.
    + apply Z.le_trans with (js_round (inject_Z g)); [| rewrite js_round_int; lia].
      apply js_round_mono. set (G := inject_Z g) in *. nra.
  - assert (G0 : (inject_Z g <= 0)%Q) by (unfold Qle, inject_Z; simpl; lia).
    split.
    + apply Z.le_trans with (js_round (inject_Z g)); [rewrite js_round_int; lia |].
      apply js_round_mono. set (G := inject_Z g) in *. nra.
    + apply Z.le_trans with (js_round 0); [| reflexivity].
      apply js_round_mono. set (G := inject_Z g) in *. nra.
Qed.

Lemma distance_factor_mono (d1 d2 : Q) :
  (d1 <= d2)%Q -> (Qmin (d1 / maxDistance) 1 <= Qmin (d2 / maxDistance) 1)%Q.
Proof.
  intros E. apply Q.min_le_compat_r.
  unfold maxDistance. apply Qmult_le_compat_r; [exact E |].
  apply Qinv_le_0_compat. discriminate.
Qed.

(** For a fixed angle, a larger distance never gives a smaller offset
    magnitude. *)
Theorem joystick_scaled_monotone (deg d1 d2 : Q) (v1 v2 : Z) :
  joystick_scaledTransposition {| evt_angle := Some deg; evt_distance := d1 |} = Some v1 ->
  joystick_scaledTransposition {| evt_angle := Some deg; evt_distance := d2 |} = Some v2 ->
  (d1 <= d2)%Q ->
  (0 <= getTranspositionFromAngle deg -> v1 <= v2) /\
  (getTranspositionFromAngle deg <= 0 -> v2 <= v1) /\
  Z.abs v1 <= Z.abs v2.
Proof.
  intros E1 E2 Hle.
  pose proof (joystick_scaled_between deg d1 v1 E1) as [P1 N1].
  pose proof (joystick_scaled_between deg d2 v2 E2) as [P2 N2].
  apply joystick_scaled_parts in E1 as [Hd1 ->].
  apply joystick_scaled_parts in E2 as [Hd2 ->].
  pose proof (distance_factor_mono d1 d2 Hle) as Hf.
  set (g := getTranspositionFromAngle deg) in *.
  set (f1 := Qmin (d1 / maxDistance) 1) in *.
  set (f2 := Qmin (d2 / maxDistance) 1) in *.
  assert (A : 0 <= g -> js_round (inject_Z g * f1) <= js_round (inject_Z g * f2)).
  { intros Hg. apply js_round_mono.
    assert (G0 : (0 <= inject_Z g)%Q) by (unfold Qle, inject_Z; simpl; lia).
    set (G := inject_Z g) in *. nra. }
  assert (B : g <= 0 -> js_round (inject_Z g * f2) <= js_round (inject_Z g * f1)).
  { intros Hg. apply js_round_mono.
    assert (G0 : (inject_Z g <= 0)%Q) by (unfold Qle, inject_Z; simpl; lia).
    set (G := inject_Z g) in *. nra. }
  split; [exact A |]. split; [exact B |].
  destruct (Z.le_ge_cases 0 g) as [Hg | Hg].
  - specialize (P1 Hg). specialize (P2 Hg). specialize (A Hg). lia.
  - specialize (N1 Hg). specialize (N2 Hg). specialize (B Hg). lia.
Qed.

Lemma joystick_scaled_between_witness :
  joystick_scaledTransposition
    {| evt_angle := Some (inject_Z 45); evt_distance := inject_Z 30 |} = Some 1 /\
  (0 <= getTranspositionFromAngle (inject_Z 45) ->
   0 <= 1 <= getTranspositionFromAngle (inject_Z 45)).
Proof.
  assert (E : joystick_scaledTransposition
    {| evt_angle := Some (inject_Z 45); evt_distance := inject_Z 30 |} = Some 1)
    by (vm_compute; reflexivity).
  split; [exact E | exact (proj1 (joystick_scaled_between _ _ _ E))].
Defined.

Lemma joystick_scaled_monotone_witness :
  joystick_scaledTransposition
    {| evt_angle := Some (inject_Z 200); evt_distance := inject_Z 30 |} = Some (-2) /\
  joystick_scaledTransposition
    {| evt_angle := Some (inject_Z 200); evt_distance := inject_Z 60 |} = Some (-5) /\
  Z.abs (-2) <= Z.abs (-5).
Proof.
  assert (E1 : joystick_scaledTransposition
    {| evt_angle := Some (inject_Z 200); evt_distance := inject_Z 30 |} = Some (-2))
    by (vm_compute; reflexivity).
  assert (E2 : joystick_scaledTransposition
    {| evt_angle := Some (inject_Z 200); evt_distance := inject_Z 60 |} = Some (-5))
    by (vm_compute; reflexivity).
  assert (D : (inject_Z 30 <= inject_Z 60)%Q) by (vm_compute; discriminate).
  split; [exact E1 |]. split; [exact E2 |].
  exact (proj2 (proj2 (joystick_scaled_monotone _ _ _ _ _ E1 E2 D))).
Defined.

(* ------------------------------------------------------------------ *)
(** ** The event loop seen from the page: ignored events, invariants, the
    chord buttons. *)

Lemma state_eta (st : state) :
  st = {| pressedKeys := pressedKeys st; modifierKeys := modifierKeys st;
          lastKeyClicked := lastKeyClicked st;
          previousTransposition := previousTransposition st;
          joystickActive := joystickActive st; transposition := transposition st |}.
Proof. destruct st; reflexivity. Qed.

(** From a settled state, flushing with nothing changed does nothing. *)
Lemma flush_self (st : state) : settled st -> flush st st = (st, []).
Proof.
  intros (Hprev & Hr & Hp). unfold flush.
  destruct (list_eq_dec string_dec (modifierKeys st) (modifierKeys st))
    as [_ | n]; [| now contradiction n].
  unfold transposition_effect. rewrite Hprev, Z.eqb_refl.
  replace (set_previousTransposition st (transposition st)) with st
    by (destruct st; simpl in *; subst; reflexivity).
  assert (P : match lastKeyClicked st with
              | Some last => if negb true && has_key (pressedKeys st) last
                             then [AfterTransposition
                                     (map (fun note => transposeNote note
                                             (transposition st)) (frequencies last))]
                             else []
              | None => [] end = []).
  { destruct (lastKeyClicked st); reflexivity. }
  rewrite P. rewrite settings_flush_stable by apply deps_eqb_refl.
  reflexivity.
Qed.

Lemma step_noop (st : state) (ev : event) :
  settled st -> handle ev st = Some (st, []) -> step st ev = (st, []).
Proof. intros Hs Hh. unfold step. rewrite Hh, flush_self by exact Hs. reflexivity. Qed.

Lemma step_throw (st : state) (ev : event) :
  handle ev st = None -> step st ev = (st, []).
Proof. intros Hh. unfold step. rewrite Hh. reflexivity. Qed.

Lemma delete_string_absent (set : list string) (x : string) :
  has set x = false -> delete_string set x = set.
Proof.
  unfold has, delete_string. induction set as [| y set IH]; [reflexivity |].
  simpl. intros H. apply orb_false_iff in H as [H1 H2].
  rewrite H1. simpl. f_equal. apply IH, H2.
Qed.

Lemma set_modifierKeys_same (st : state) : set_modifierKeys st (modifierKeys st) = st.
Proof. destruct st; reflexivity. Qed.

Lemma joystick_ignored (evt : joystick_evt) :
  evt_angle evt = None \/ (evt_distance evt <= inject_Z 5)%Q ->
  joystick_scaledTransposition evt = None.
Proof.
  unfold joystick_scaledTransposition. intros [E | E]; [rewrite E; reflexivity |].
  destruct (evt_angle evt); [| reflexivity].
  apply Qle_bool_iff in E. rewrite E. reflexivity.
Qed.

Lemma modifier_not_chord (s : string) :
  is_modifier s = true -> chord_key_of s = None.
Proof.
  unfold is_modifier, has. simpl.
  intros H. repeat apply orb_true_iff in H as [H | H];
    try (apply String.eqb_eq in H; subst s; reflexivity).
  discriminate.
Qed.

(** Events the component ignores, from any reachable state: they change
    nothing and issue no call. *)
Theorem ignored_events (st : state) :
  reachable st ->
  (forall s, chord_key_of s = None -> is_modifier s = false ->
     step st (KeyDown s) = (st, []) /\ step st (KeyUp s) = (st, [])) /\
  (forall s key, chord_key_of s = Some key -> In key (pressedKeys st) ->
     step st (KeyDown s) = (st, [])) /\
  (forall s key, chord_key_of s = Some key -> ~ In key (pressedKeys st) ->
     step st (KeyUp s) = (st, [])) /\
  (forall s, is_modifier s = true -> has (modifierKeys st) s = true ->
     step st (KeyDown s) = (st, [])) /\
  (forall s, is_modifier s = true -> has (modifierKeys st) s = false ->
     step st (KeyUp s) = (st, [])) /\
  (forall evt, evt_angle evt = None \/ (evt_distance evt <= inject_Z 5)%Q ->
     step st (JoystickMove evt) = (st, [])).
Proof.
  intros Hreach. pose proof (reachable_settled st Hreach) as Hset.
  split; [| split; [| split; [| split; [| split]]]].
  - intros s Hc Hm. split; apply step_throw; simpl;
      [unfold onKeyDown | unfold onKeyUp]; rewrite Hc, Hm; reflexivity.
  - intros s key Hc Hin. apply step_noop; [exact Hset |].
    simpl. unfold onKeyDown. rewrite Hc. apply has_key_In in Hin. rewrite Hin.
    reflexivity.
  - intros s key Hc Hn. apply step_noop; [exact Hset |].
    simpl. unfold onKeyUp. rewrite Hc.
    destruct (has_key (pressedKeys st) key) eqn:Hk; [| reflexivity].
    apply has_key_In in Hk. contradiction.
  - intros s Hm Hh. apply step_noop; [exact Hset |].
    simpl. unfold onKeyDown.
    destruct (chord_key_of s) eqn:Hc.
    + rewrite modifier_not_chord in Hc by exact Hm. discriminate.
    + rewrite Hm, Hh. reflexivity.
  - intros s Hm Hh. apply step_noop; [exact Hset |].
    simpl. unfold onKeyUp.
    destruct (chord_key_of s) eqn:Hc.
    + rewrite modifier_not_chord in Hc by exact Hm. discriminate.
    + rewrite Hm, delete_string_absent, set_modifierKeys_same by exact Hh.
      reflexivity.
  - intros evt He. apply step_noop; [exact Hset |].
    simpl. unfold handleJoystickMove. rewrite joystick_ignored by exact He.
    reflexivity.
Qed.

Lemma ignored_events_witness :
  step (fst (run [KeyDown "h"])) (KeyDown "h") = (fst (run [KeyDown "h"]), []).
Proof.
  refine (proj1 (proj2 (ignored_events (fst (run [KeyDown "h"]))
            (ex_intro _ [KeyDown "h"] eq_refl))) "h"%string h eq_refl _).
  vm_compute. left. reflexivity.
Defined.

Lemma handle_modifiers (ev : event) (st st1 : state) (calls : list synth_call) :
  handle ev st = Some (st1, calls) ->
  modifierKeys st1 = modifierKeys st \/
  (exists s, is_modifier s = true /\ has (modifierKeys st) s = false /\
             modifierKeys st1 = modifierKeys st ++ [s]) \/
  (exists s, modifierKeys st1 = delete_string (modifierKeys st) s).
Proof.
  destruct ev as [s | s | evt |]; simpl; intros H.
  - unfold onKeyDown in H. destruct (chord_key_of s) as [key|].
    + destruct (negb (has_key (pressedKeys st) key)); [| injection H as <-; auto].
      destruct (lastKeyClicked _) as [last|]; [destruct (has_key _ last) |];
        injection H as <-; left; reflexivity.
    + destruct (is_modifier s) eqn:Hm; [| discriminate].
      destruct (has (modifierKeys st) s) eqn:Hh; simpl in H;
        injection H as <-; [left; reflexivity |].
      right; left. exists s. unfold add_string. rewrite Hh. auto.
  - unfold onKeyUp in H. destruct (chord_key_of s) as [key|].
    + destruct (has_key (pressedKeys st) key); [| injection H as <-; auto].
      destruct (lastKeyClicked _) as [last|]; [destruct (key_eqb last key) |];
        injection H as <-; left; reflexivity.
    + destruct (is_modifier s); [| discriminate].
      injection H as <-. right; right. exists s. reflexivity.
  - injection H as <-. left. unfold handleJoystickMove.
    destruct (joystick_scaledTransposition evt); reflexivity.
  - injection H as <-. left. reflexivity.
Qed.

Lemma has_In (set : list string) (x : string) : has set x = true <-> In x set.
Proof.
  unfold has. rewrite existsb_exists. split.
  - intros [y [Hy E]]. apply String.eqb_eq in E. subst. exact Hy.
  - intros Hx. exists x. split; [exact Hx | apply String.eqb_refl].
Qed.

Lemma step_modifiers_ok (st : state) (ev : event) :
  modifiers_ok (modifierKeys st) -> modifiers_ok (modifierKeys (fst (step st ev))).
Proof.
  intros [Hn Hi]. unfold step.
  destruct (handle ev st) as [[st1 calls]|] eqn:Hh; [| split; assumption].
  pose proof (flush_fields st st1) as (_ & _ & M).
  destruct (flush st st1) as [st2 c2]. simpl in *. rewrite M.
  destruct (handle_modifiers ev st st1 calls Hh)
    as [-> | [(s & Hm & Ha & ->) | (s & ->)]].
  - split; assumption.
  - split.
    + apply NoDup_app; [exact Hn | constructor; [intros [] | constructor] |].
      intros x Hx [<- | []]. apply has_In in Hx. congruence.
    + apply incl_app; [exact Hi |]. intros x [<- | []].
      apply has_In in Hm. exact Hm.
  - split.
    + apply NoDup_filter, Hn.
    + intros x Hx. apply filter_In in Hx. apply Hi, Hx.
Qed.

Lemma run_from_fst (st : state) (ev : event) (evs : list event) :
  fst (run_from st (ev :: evs)) = fst (run_from (fst (step st ev)) evs).
Proof.
  simpl. destruct (step st ev) as [st1 c1]. simpl.
  destruct (run_from st1 evs). reflexivity.
Qed.

Lemma run_from_modifiers_ok (evs : list event) (s0 : state) :
  modifiers_ok (modifierKeys s0) ->
  modifiers_ok (modifierKeys (fst (run_from s0 evs))).
Proof.
  revert s0. induction evs as [| ev evs IH]; intros s0 H0; [exact H0 |].
  rewrite run_from_fst. apply IH, step_modifiers_ok, H0.
Qed.

(** Every state the component reaches: the offset is within [-24, 24]
    and already applied ([previousTransposition] equals it), at most one
    chord key is held, and it is the last clicked one, and the modifier
    set holds only w, a, s, d, each at most once. *)
Theorem reachable_state_shape (evs : list event) :
  let st := fst (run evs) in
  -24 <= transposition st <= 24 /\
  previousTransposition st = transposition st /\
  pressedKeys st = match lastKeyClicked st with Some key => [key] | None => [] end /\
  NoDup (modifierKeys st) /\ incl (modifierKeys st) ["w"; "a"; "s"; "d"]%string.
Proof.
  intros st. pose proof (run_settled evs) as (Hprev & Hr & Hp).
  assert (M : modifiers_ok (modifierKeys st)).
  { apply run_from_modifiers_ok. split; [constructor | intros x []]. }
  destruct M as [Mn Mi].
  split; [exact Hr |]. split; [exact Hprev |]. split; [exact Hp |].
  split; [exact Mn | exact Mi].
Qed.

Lemma key_name_chord (key : KeyboardKeys) : chord_key_of (key_name key) = Some key.
Proof. destruct key; reflexivity. Qed.

Lemma has_key_key_list (x : option KeyboardKeys) (key : KeyboardKeys) :
  has_key (key_list x) key = true <-> x = Some key.
Proof.
  destruct x as [k'|]; simpl.
  - unfold has_key. simpl. rewrite orb_false_r. split.
    + unfold key_eqb. destruct (KeyboardKeys_eq_dec key k'); congruence.
    + intros E. injection E as <-. apply key_eqb_refl.
  - unfold has_key. simpl. split; discriminate.
Qed.

(** On a settled state, pressing a held chord key and releasing a chord
    key that is not held change nothing and call nothing. *)
Lemma step_down_held (st : state) (key : KeyboardKeys) :
  settled st -> has_key (pressedKeys st) key = true ->
  step st (KeyDown (key_name key)) = (st, []).
Proof.
  intros Hs Hh. apply step_noop; [exact Hs |].
  simpl. unfold onKeyDown. rewrite key_name_chord, Hh. reflexivity.
Qed.

Lemma step_up_free (st : state) (key : KeyboardKeys) :
  settled st -> has_key (pressedKeys st) key = false ->
  step st (KeyUp (key_name key)) = (st, []).
Proof.
  intros Hs Hh. apply step_noop; [exact Hs |].
  simpl. unfold onKeyUp. rewrite key_name_chord, Hh. reflexivity.
Qed.

(** A chord button's [ontouchmove] never changes the state and never
    calls the synth: it only calls [onKeyDown] on a key that is already
    held, which the handler ignores. *)
Theorem touchmove_inert (st : state) (key : KeyboardKeys) :
  reachable st -> button_step st key TouchMove = (st, []).
Proof.
  intros Hr. pose proof (reachable_settled st Hr) as Hs.
  unfold button_step, button_handler.
  destruct (has_key (pressedKeys st) key) eqn:Hh; [| reflexivity].
  apply step_down_held; assumption.
Qed.

Lemma touchmove_inert_witness :
  reachable (fst (run [KeyDown "h"%string])) /\
  button_step (fst (run [KeyDown "h"%string])) h TouchMove =
    (fst (run [KeyDown "h"%string]), []).
Proof.
  assert (R : reachable (fst (run [KeyDown "h"%string])))
    by (exists [KeyDown "h"%string]; reflexivity).
  split; [exact R | apply (touchmove_inert _ h R)].
Defined.

(** On every reachable state, the guards of the chord buttons change
    nothing: a press ([mousedown], [touchstart]) acts exactly as the
    keydown of the button's key, and a release ([mouseup], [touchend],
    [mouseleave]) exactly as its keyup. *)
Theorem buttons_as_keys (st : state) (key : KeyboardKeys) :
  reachable st ->
  button_step st key MouseDown = step st (KeyDown (key_name key)) /\
  button_step st key TouchStart = step st (KeyDown (key_name key)) /\
  button_step st key MouseUp = step st (KeyUp (key_name key)) /\
  button_step st key TouchEnd = step st (KeyUp (key_name key)) /\
  button_step st key MouseLeave = step st (KeyUp (key_name key)).
Proof.
  intros Hr. pose proof (reachable_settled st Hr) as Hs.
  unfold button_step, button_handler.
  destruct (has_key (pressedKeys st) key) eqn:Hh; simpl.
  - rewrite step_down_held by assumption. repeat split; reflexivity.
  - rewrite step_up_free by assumption. repeat split; reflexivity.
Qed.

Lemma buttons_as_keys_witness :
  reachable (fst (run [KeyDown "u"%string])) /\
  button_step (fst (run [KeyDown "u"%string])) h MouseDown =
    step (fst (run [KeyDown "u"%string])) (KeyDown "h"%string).
Proof.
  assert (R : reachable (fst (run [KeyDown "u"%string])))
    by (exists [KeyDown "u"%string]; reflexivity).
  split; [exact R | apply (buttons_as_keys _ h R)].
Defined.

(** Every sequence of page events, buttons included, has the effect of a
    sequence of listener events: a button handler whose guard fails does
    nothing, and one whose guard holds calls the listener. *)
Theorem run_ui_as_run (ues : list ui_event) : exists evs, run_ui ues = run evs.
Proof.
  unfold run_ui, run. generalize init_state as st.
  induction ues as [| ue ues IH]; intros st; [exists []; reflexivity |].
  assert (U : (exists ev, ui_step st ue = step st ev) \/ ui_step st ue = (st, [])).
  { destruct ue as [ev | key bev]; [left; exists ev; reflexivity |].
    simpl. unfold button_step.
    destruct (button_handler key bev st) as [ev|]; [left; exists ev | right];
      reflexivity. }
  destruct U as [[ev U] | U].
  - destruct (step st ev) as [st1 c1] eqn:E.
    destruct (IH st1) as [evs Hevs]. exists (ev :: evs).
    simpl. rewrite U, E, Hevs. reflexivity.
  - destruct (IH st) as [evs Hevs]. exists evs.
    simpl. rewrite U, Hevs. destruct (run_from st evs). reflexivity.
Qed.


(** A chord key's handlers touch neither the modifier set, the joystick
    flag nor the offset. *)
Lemma handle_chord_frame (st st1 : state) (calls : list synth_call)
  (s : string) (key : KeyboardKeys) (ev : event) :
  chord_key_of s = Some key -> ev = KeyDown s \/ ev = KeyUp s ->
  handle ev st = Some (st1, calls) ->
  modifierKeys st1 = modifierKeys st /\ joystickActive st1 = joystickActive st /\
  transposition st1 = transposition st.
Proof.
  intros Hc [-> | ->]; simpl.
  - unfold onKeyDown. rewrite Hc.
    destruct (negb (has_key (pressedKeys st) key)); [| intros E; injection E as <-; auto].
    destruct (lastKeyClicked _) as [last|]; [destruct (has_key _ last) |];
      intros E; injection E as <-; auto.
  - unfold onKeyUp. rewrite Hc.
    destruct (has_key (pressedKeys st) key); [| intros E; injection E as <-; auto].
    destruct (lastKeyClicked _) as [last|]; [destruct (key_eqb last key) |];
      intros E; injection E as <-; auto.
Qed.

Lemma step_chord_frame (st : state) (s : string) (key : KeyboardKeys) (ev : event) :
  chord_key_of s = Some key -> ev = KeyDown s \/ ev = KeyUp s ->
  modifierKeys (fst (step st ev)) = modifierKeys st /\
  joystickActive (fst (step st ev)) = joystickActive st.
Proof.
  intros Hc Hev. unfold step.
  destruct (handle ev st) as [[st1 calls]|] eqn:Hh; [| auto].
  destruct (handle_chord_frame st st1 calls s key ev Hc Hev Hh) as (M & J & _).
  pose proof (flush_fields st st1) as (_ & J2 & M2).
  destruct (flush st st1) as [st2 c2]. simpl in *. split; congruence.
Qed.

(** Pressing and then releasing a chord key while no chord sounds gives
    back the state exactly, and the synth receives attack, release, attack
    (the handler, then the settings effect replaying the chord), then the
    release of the key and the settings effect's [releaseAll]. *)
Theorem press_release_roundtrip (st : state) (s : string) (key : KeyboardKeys) :
  reachable st -> lastKeyClicked st = None -> chord_key_of s = Some key ->
  let '(st1, c1) := step st (KeyDown s) in
  let '(st2, c2) := step st1 (KeyUp s) in
  st2 = st /\
  c1 ++ c2 =
    [TriggerAttack (getTransposedFrequencies key (transposition st));
     TriggerRelease (getTransposedFrequencies key (transposition st));
     TriggerAttack (getTransposedFrequencies key (transposition st));
     TriggerRelease (getTransposedFrequencies key (transposition st));
     ReleaseAll].
Proof.
  intros Hr Hl Hc.
  assert (Hs : settled st) by (apply reachable_settled, Hr).
  pose proof Hs as (Hprev & Hrange & Hp).
  rewrite Hl in Hp. simpl in Hp.
  assert (Hn : ~ In key (pressedKeys st)) by (rewrite Hp; intros []).
  pose proof (step_chord_down st s key Hs Hc Hn) as D.
  pose proof (step_chord_frame st s key (KeyDown s) Hc (or_introl eq_refl)) as FD.
  destruct (step st (KeyDown s)) as [st1 c1]. simpl in FD.
  destruct D as (L1 & P1 & T1 & V1 & C1). rewrite Hl in C1. simpl in C1.
  assert (Hs1 : settled st1).
  { unfold settled. rewrite L1, P1, T1, V1. simpl. auto. }
  assert (Hin : In key (pressedKeys st1)) by (rewrite P1; left; reflexivity).
  pose proof (step_chord_up st1 s key Hs1 Hc Hin) as U.
  pose proof (step_chord_frame st1 s key (KeyUp s) Hc (or_intror eq_refl)) as FU.
  destruct (step st1 (KeyUp s)) as [st2 c2]. simpl in FU.
  destruct U as (_ & L2 & P2 & T2 & V2 & C2).
  destruct FD as [MD JD]. destruct FU as [MU JU].
  split.
  - rewrite (state_eta st2), (state_eta st).
    rewrite L2, P2, T2, V2, MU, JU, MD, JD, T1, Hl, Hp, Hprev. reflexivity.
  - rewrite C1, C2, T1. reflexivity.
Qed.

Lemma press_release_roundtrip_witness :
  let st := fst (run [KeyDown "d"%string]) in
  reachable st /\ lastKeyClicked st = None /\ chord_key_of "k" = Some k /\
  let '(st1, c1) := step st (KeyDown "k"%string) in
  let '(st2, c2) := step st1 (KeyUp "k"%string) in
  st2 = st /\
  c1 ++ c2 =
    [TriggerAttack (getTransposedFrequencies k (transposition st));
     TriggerRelease (getTransposedFrequencies k (transposition st));
     TriggerAttack (getTransposedFrequencies k (transposition st));
     TriggerRelease (getTransposedFrequencies k (transposition st));
     ReleaseAll].
Proof.
  intros st.
  assert (R : reachable st) by (exists [KeyDown "d"%string]; reflexivity).
  assert (L : lastKeyClicked st = None) by reflexivity.
  assert (C : chord_key_of "k" = Some k) by reflexivity.
  split; [exact R |]. split; [exact L |]. split; [exact C |].
  exact (press_release_roundtrip st "k"%string k R L C).
Defined.

(** The two kinds of input do not interfere: a chord key's events leave
    the offset, the modifier set and the joystick flag as they are, and
    every other event (modifier keys, other keys, the joystick) leaves the
    held chord key and the last clicked key as they are. *)
Theorem input_frames (st : state) :
  reachable st ->
  (forall s key ev, chord_key_of s = Some key -> ev = KeyDown s \/ ev = KeyUp s ->
     transposition (fst (step st ev)) = transposition st /\
     modifierKeys (fst (step st ev)) = modifierKeys st /\
     joystickActive (fst (step st ev)) = joystickActive st) /\
  (forall ev, (forall s, ev = KeyDown s \/ ev = KeyUp s -> chord_key_of s = None) ->
     pressedKeys (fst (step st ev)) = pressedKeys st /\
     lastKeyClicked (fst (step st ev)) = lastKeyClicked st).
Proof.
  intros Hr. pose proof (reachable_settled st Hr) as Hs. split.
  - intros s key ev Hc Hev.
    pose proof (step_chord_frame st s key ev Hc Hev) as [M J].
    split; [| exact (conj M J)].
    unfold step in *.
    destruct (handle ev st) as [[st1 calls]|] eqn:Hh; [| reflexivity].
    destruct (handle_chord_frame st st1 calls s key ev Hc Hev Hh) as (M1 & _ & T1).
    pose proof (flush_fields st st1) as (T2 & _ & _).
    destruct (flush st st1) as [st2 c2]. simpl in *.
    rewrite T2. destruct (list_eq_dec string_dec (modifierKeys st) (modifierKeys st1))
      as [_ | n]; [exact T1 | congruence].
  - intros ev Hev.
    assert (Hd : forall s key, ev = KeyDown s -> chord_key_of s = Some key ->
                   In key (pressedKeys st)).
    { intros s key E Hc. rewrite (Hev s (or_introl E)) in Hc. discriminate. }
    assert (Hu : forall s key, ev = KeyUp s -> chord_key_of s = Some key ->
                   ~ In key (pressedKeys st)).
    { intros s key E Hc. rewrite (Hev s (or_intror E)) in Hc. discriminate. }
    pose proof (step_other st ev Hs Hd Hu) as O.
    destruct (step st ev) as [st' calls]. destruct O as (L & P & _).
    simpl. split; assumption.
Qed.

Lemma input_frames_witness :
  let st := fst (run [KeyDown "h"%string; KeyDown "w"%string]) in
  reachable st /\
  transposition (fst (step st (KeyDown "j"%string))) = transposition st /\
  lastKeyClicked (fst (step st (KeyUp "w"%string))) = lastKeyClicked st.
Proof.
  intros st.
  assert (R : reachable st)
    by (exists [KeyDown "h"%string; KeyDown "w"%string]; reflexivity).
  split; [exact R |]. split.
  - apply (proj1 (input_frames st R) "j"%string j); [reflexivity | left; reflexivity].
  - apply (proj2 (input_frames st R)).
    intros s [E | E]; [discriminate | injection E as <-; reflexivity].
Defined.
